(** * vcfsample2info: per-sample values summarised into a site-level INFO field

    A shallow embedding of [src/vcfsample2info.cpp] (vcflib) and the
    properties of its statistic helpers, its header line and its
    per-record aggregation loop. *)

From Stdlib Require Import ZArith Ascii Floats.SpecFloat.
From stdpp Require Import gmap strings list sorting pretty.

Local Open Scope string_scope.
Local Open Scope list_scope.

(** ** The C++ [double]

    IEEE 754 binary64, as the Standard Library specifies it: [spec_float]
    with a 53-bit significand and the infinities at exponent 1024.  The
    arithmetic rounds to nearest, ties to even. *)

Module Double.

Definition double : Type := spec_float.

Definition prec : Z := 53.
Definition emax : Z := 1024.

Definition zero : double := S754_zero false.
Definition nan : double := S754_nan.

(** [a + b], [a / b] and [a < b] on doubles. *)
Definition add (a b : double) : double := SFadd prec emax a b.
Definition div (a b : double) : double := SFdiv prec emax a b.
Definition ltb (a b : double) : bool := SFltb a b.

(** The conversion of an integer to [double] (the usual arithmetic
    conversion applied to the [size_t] operand of [sum / v.size()]). *)
Definition of_Z (z : Z) : double := binary_normalize prec emax z 0 false.
Definition of_nat (n : nat) : double := of_Z (Z.of_nat n).

Definition is_nan (a : double) : bool :=
  match a with S754_nan => true | _ => false end.

(** [a <= b] as the language compares doubles. *)
Definition leb (a b : double) : bool := SFleb a b.

(** [a == b] as the language compares doubles: neither is below the other
    and none is a NaN.  The two zeros are equal in this sense. *)
Definition eqb (a b : double) : bool := SFeqb a b.

End Double.

Export Double.

(** ** The standard algorithms the program calls

    [std::accumulate], [std::nth_element], [std::min_element] and
    [std::max_element], all instantiated at [vector<double>] with the
    default comparison [<].  Iterators are offsets from [begin()]. *)

Module Std.

(** [for (; first != last; ++first) init = init + *first; return init;] *)
Fixpoint accumulate (v : list double) (init : double) : double :=
  match v with
  | [] => init
  | x :: v' => accumulate v' (add init x)
  end.

(** [nth_element(first, nth, last)] rearranges the range in place.  It is
    modelled by selection around a pivot: the values below the pivot go to
    its left, the others to its right, and the search goes on in the side
    that holds position [nth].  [fuel] bounds the number of pivots; the
    length of the range is enough. *)
Fixpoint select (fuel nth : nat) (v : list double) : list double :=
  match fuel, v with
  | S fuel', pivot :: rest =>
      let below := List.filter (fun y => ltb y pivot) rest in
      let above := List.filter (fun y => negb (ltb y pivot)) rest in
      match Nat.compare nth (length below) with
      | Lt => select fuel' nth below ++ pivot :: above
      | Eq => below ++ pivot :: above
      | Gt => below ++ pivot :: select fuel' (nth - S (length below)) above
      end
  | _, _ => v
  end.

Definition nth_element (nth : nat) (v : list double) : list double :=
  select (length v) nth v.

(** The arrangement [nth_element] leaves: the value at offset [nth] has
    none above it to its left and none below it to its right.  Whatever
    is proved of [median] below is proved from this arrangement and from
    the range keeping its values, not from the choice of pivots. *)
Definition partitioned_at (nth : nat) (w : list double) : Prop :=
  exists pre x post,
    w = pre ++ x :: post /\ length pre = nth /\
    Forall (fun y => ltb x y = false) pre /\
    Forall (fun y => ltb y x = false) post.

(** [min_element(first, last)]: the offset of the first smallest value;
    [last] when the range is empty.
    [result = first; while (++first != last) if ( *first < *result ) result = first;] *)
Fixpoint min_element_loop (result : nat) (at_result : double)
    (first : nat) (rest : list double) : nat :=
  match rest with
  | [] => result
  | x :: rest' =>
      if ltb x at_result then min_element_loop first x (S first) rest'
      else min_element_loop result at_result (S first) rest'
  end.

Definition min_element (v : list double) : nat :=
  match v with
  | [] => 0
  | x :: rest => min_element_loop 0 x 1 rest
  end.

(** [max_element(first, last)]: the offset of the first largest value.
    [if ( *result < *first ) result = first;] *)
Fixpoint max_element_loop (result : nat) (at_result : double)
    (first : nat) (rest : list double) : nat :=
  match rest with
  | [] => result
  | x :: rest' =>
      if ltb at_result x then max_element_loop first x (S first) rest'
      else max_element_loop result at_result (S first) rest'
  end.

Definition max_element (v : list double) : nat :=
  match v with
  | [] => 0
  | x :: rest => max_element_loop 0 x 1 rest
  end.

End Std.

(** ** What a fallible step of the program yields *)

Inductive result (A : Type) : Type :=
  | Ok (a : A)
  | Fatal (diagnostic : string)
      (** a line on the error stream, then [return 1] from [main] *)
  | Undefined.
      (** the step has no defined behaviour: an element of an empty
          vector is read, or the end iterator is dereferenced *)

Arguments Ok {A} a.
Arguments Fatal {A} diagnostic.
Arguments Undefined {A}.

#[global] Instance result_ret : MRet result := fun A a => Ok a.

#[global] Instance result_bind : MBind result := fun A B k r =>
  match r with
  | Ok a => k a
  | Fatal d => Fatal d
  | Undefined => Undefined
  end.

#[global] Instance result_fmap : FMap result := fun A B f r =>
  match r with
  | Ok a => Ok (f a)
  | Fatal d => Fatal d
  | Undefined => Undefined
  end.

(** [v[n]] and [*it]: defined only inside the vector. *)
Definition deref (v : list double) (it : nat) : result double :=
  match v !! it with
  | Some x => Ok x
  | None => Undefined
  end.

(** ** The statistic helpers of [vcfsample2info.cpp] *)

(** [median] takes the vector by reference: the rearranged vector is
    returned next to the value read at [v[n]]. *)
Definition median (v : list double) : list double * result double :=
  let n := length v / 2 in
  let v' := Std.nth_element n v in
  (v', deref v' n).

Definition mean (v : list double) : double :=
  let sum := Std.accumulate v zero in
  div sum (of_nat (length v)).

Inductive StatType : Set := MEAN | MEDIAN | MIN | MAX.

Definition statTypeStr (statType : StatType) : string :=
  match statType with
  | MEAN => "mean"
  | MEDIAN => "median"
  | MIN => "min"
  | MAX => "max"
  end.

(** ** Records and options *)

(** The two members of [vcflib::Variant] the program touches.  [info] is
    [map<string, vector<string> >]; [samples] is
    [map<string, map<string, vector<string> > >], given as the sequence of
    its entries in the order the map iterator visits them. *)
Record Variant : Type := mkVariant {
  info : gmap string (list string);
  samples : list (string * gmap string (list string))
}.

(** The locals of [main] that the option loop fills in. *)
Record Options : Type := mkOptions {
  sampleField : string;
  infoField : string;
  statType : StatType
}.

(** What reaches the standard output: the header, then one record a line. *)
Inductive Emitted : Type :=
  | HeaderText (header : string)
  | VariantLine (var : Variant).

(** The end of a run: the two streams and the value [main] returns, if the
    run stays within defined behaviour. *)
Record Run : Type := mkRun {
  cout : list Emitted;
  cerr : list string;
  status : option Z
}.

(** [m[k]] on the [info] map: an absent key is added with an empty vector. *)
Definition subscript (m : gmap string (list string)) (k : string)
    : gmap string (list string) :=
  match m !! k with
  | Some _ => m
  | None => <[k := []]> m
  end.

(** [m[k].clear()] *)
Definition clear_at (m : gmap string (list string)) (k : string)
    : gmap string (list string) :=
  <[k := []]> (subscript m k).

(** [m[k].push_back(x)] *)
Definition push_back_at (m : gmap string (list string)) (k : string) (x : string)
    : gmap string (list string) :=
  let m' := subscript m k in
  <[k := default [] (m' !! k) ++ [x]]> m'.

Definition quote : string := String (Ascii.ascii_of_nat 34) EmptyString.

Definition multiple_values_error : string :=
  "Error: cannot handle sample fields with multiple values".

Definition missing_field_error : string :=
  "Error: both a sample field and an info field are required.".

(** ** [main], from the parsed options on

    The helpers of vcflib that [main] calls are declared in other files of
    the library; they are taken as they are:
    - [convert_string s] is [convert(s, val)]: the flag the call returns and
      the value it leaves in [val], both taken to depend on the text only;
    - [convert_double x] is [convert(x)], the text of a double;
    - [addHeaderLine header line] is the header after
      [variantFile.addHeaderLine(line)]. *)

Section Main.

Variable convert_string : string -> bool * double.
Variable convert_double : double -> string.
Variable addHeaderLine : string -> string -> string.

(** The argument of [addHeaderLine]. *)
Definition header_line (o : Options) : string :=
  "##INFO=<ID=" +:+ infoField o +:+ ",Number=1,Type=Float,Description=" +:+ quote
  +:+ "Summary statistic generated by" +:+ statTypeStr (statType o)
  +:+ " of per-sample values of " +:+ sampleField o +:+ " " +:+ quote +:+ ">".

(** The loop over [var.samples] that fills [vals].  The flag of
    [convert(s, val)] is dropped, as in the source. *)
Fixpoint collect (field : string) (ss : list (string * gmap string (list string)))
    (vals : list double) : result (list double) :=
  match ss with
  | [] => Ok vals
  | (_, sample) :: ss' =>
      match sample !! field with
      | None => collect field ss' vals
      | Some values =>
          match values with
          | [] => Undefined
          | s :: _ =>
              if (1 <? length values)%nat then Fatal multiple_values_error
              else
                let val := (convert_string s).2 in
                collect field ss' (vals ++ [val])
          end
      end
  end.

(** The [switch (statType)] that sets [result]. *)
Definition statistic (t : StatType) (vals : list double) : result double :=
  match t with
  | MEAN => Ok (mean vals)
  | MEDIAN => (median vals).2
  | MIN => deref vals (Std.min_element vals)
  | MAX => deref vals (Std.max_element vals)
  end.

(** One turn of the [while (variantFile.getNextVariant(var))] loop, up to
    the point where the record is written out. *)
Definition aggregate (o : Options) (var : Variant) : result Variant :=
  vals ← collect (sampleField o) (samples var) [];
  r ← statistic (statType o) vals;
  let info1 := clear_at (info var) (infoField o) in
  let info2 := push_back_at info1 (infoField o) (convert_double r) in
  mret (mkVariant info2 (samples var)).

Fixpoint main_loop (o : Options) (vars : list Variant) (out : list Emitted) : Run :=
  match vars with
  | [] => mkRun out [] (Some 0%Z)
  | var :: vars' =>
      match aggregate o var with
      | Ok var' => main_loop o vars' (out ++ [VariantLine var'])
      | Fatal diagnostic => mkRun out [diagnostic] (Some 1%Z)
      | Undefined => mkRun out [] None
      end
  end.

(** [main] once the options are parsed and the input is open
    ([variantFile.is_open()] holds): [header] is the header of the input,
    [vars] the records [getNextVariant] yields one after the other. *)
Definition main (o : Options) (header : string) (vars : list Variant) : Run :=
  if bool_decide (infoField o = EmptyString) || bool_decide (sampleField o = EmptyString)
  then mkRun [] [missing_field_error] (Some 1%Z)
  else main_loop o vars [HeaderText (addHeaderLine header (header_line o))].

End Main.

(** ** The words of the specification *)

Module Spec.

(** [a <= b] on collected values: [b] is not below [a]. *)
Definition le (a b : double) : Prop := ltb b a = false.

#[global] Instance le_dec (a b : double) : Decision (le a b).
Proof. unfold le. apply _. Defined.

(** The collected values sorted: every value is [<=] all later ones. *)
Definition sorted (s : list double) : Prop := StronglySorted le s.

(** A sort to run the examples with. *)
Definition sort (v : list double) : list double := merge_sort le v.

(** The sum of the first [k] values, [v1 + ... + vk], the empty sum being
    zero. *)
Fixpoint partial_sum (v : list double) (k : nat) : double :=
  match k with
  | O => zero
  | S k' => add (partial_sum v k') (default zero (v !! k'))
  end.

(** [(v1 + ... + vn) / n] *)
Definition arithmetic_mean (v : list double) : double :=
  div (partial_sum v (length v)) (of_nat (length v)).

(** No value of the sequence is a NaN. *)
Definition ordered_values (v : list double) : Prop :=
  Forall (fun x => is_nan x = false) v.

(** [r] is a minimum of [v]: one of its values, with none below it. *)
Definition minimum_of (r : double) (v : list double) : Prop :=
  r ∈ v /\ forall y, y ∈ v -> le r y.

(** [r] is a maximum of [v]: one of its values, with none above it. *)
Definition maximum_of (r : double) (v : list double) : Prop :=
  r ∈ v /\ forall y, y ∈ v -> le y r.

(** The sample [sample] has no entry for [field]. *)
Definition lacks (field : string) (sample : gmap string (list string)) : Prop :=
  sample !! field = None.

(** The sample's entry for [field] holds two values or more. *)
Definition multi_valued (field : string) (sample : gmap string (list string)) : Prop :=
  exists values, sample !! field = Some values /\ 2 <= length values.

(** No sample has an entry for [field] that is an empty vector: every
    entry has a first value for [front()] to return. *)
Definition entries_have_front (field : string)
    (ss : list (string * gmap string (list string))) : Prop :=
  Forall (fun s => s.2 !! field <> Some []) ss.

(** The header line of the specification, the statistic set off by
    spaces. *)
Definition info_declaration (o : Options) : string :=
  "##INFO=<ID=" +:+ infoField o +:+ ",Number=1,Type=Float,Description=" +:+ quote
  +:+ "Summary statistic generated by " +:+ statTypeStr (statType o)
  +:+ " of per-sample values of " +:+ sampleField o +:+ " " +:+ quote +:+ ">".

End Spec.

(** ** An instance of the vcflib helpers, for the worked examples

    Unsigned decimal integers are read, integral doubles are written in
    decimal, and a header line is added at the end of the header. *)

Module Example.

Definition digit (c : Ascii.ascii) : option N :=
  let n := Ascii.N_of_ascii c in
  if ((48 <=? n) && (n <=? 57))%N then Some (n - 48)%N else None.

Fixpoint read_digits (s : string) (acc : N) : N * string :=
  match s with
  | String c s' =>
      match digit c with
      | Some d => read_digits s' (10 * acc + d)%N
      | None => (acc, s)
      end
  | EmptyString => (acc, s)
  end.

(** The flag tells whether the whole text was a number. *)
Definition convert_string (s : string) : bool * double :=
  let '(n, rest) := read_digits s 0%N in
  (bool_decide (rest = EmptyString) && negb (bool_decide (s = EmptyString)),
   of_Z (Z.of_N n)).

Definition integral (x : double) : option Z :=
  match x with
  | S754_zero _ => Some 0%Z
  | S754_finite s m e =>
      if (0 <=? e)%Z then Some (cond_Zopp s (Zpos m * 2 ^ e))%Z
      else if (Zpos m mod 2 ^ (- e) =? 0)%Z
           then Some (cond_Zopp s (Zpos m / 2 ^ (- e)))%Z
           else None
  | _ => None
  end.

Definition convert_double (x : double) : string :=
  match integral x with
  | Some z => pretty z
  | None =>
      match x with
      | S754_nan => "nan"
      | S754_infinity s => if s then "-inf" else "inf"
      | S754_finite s m e =>
          (if s then "-" else EmptyString) +:+ pretty (Zpos m) +:+ "p" +:+ pretty e
      | S754_zero _ => "0"
      end
  end.

Definition newline : string := String (Ascii.ascii_of_nat 10) EmptyString.

Definition addHeaderLine (header line : string) : string :=
  header +:+ newline +:+ line.

(** The record of the end-to-end scenarios: S1 has DP 10, S2 has DP 20,
    S3 has no DP. *)
Definition S1 : gmap string (list string) := {[ "DP" := ["10"] ]}.
Definition S2 : gmap string (list string) := {[ "DP" := ["20"] ]}.
Definition S3 : gmap string (list string) := {[ "GT" := ["0/1"] ]}.

Definition record : Variant :=
  mkVariant {[ "NS" := ["3"] ]} [("S1", S1); ("S2", S2); ("S3", S3)].

(** S2 with two values for DP. *)
Definition S2_two : gmap string (list string) := {[ "DP" := ["20"; "21"] ]}.

Definition record_two : Variant :=
  mkVariant {[ "NS" := ["3"] ]} [("S1", S1); ("S2", S2_two); ("S3", S3)].

(** S1 with a DP that is no number. *)
Definition S1_text : gmap string (list string) := {[ "DP" := ["abc"] ]}.

Definition record_text : Variant :=
  mkVariant {[ "NS" := ["3"] ]} [("S1", S1_text); ("S2", S2); ("S3", S3)].

(** The record with a stale DP_MEAN in its INFO. *)
Definition record_stale : Variant :=
  mkVariant {[ "NS" := ["3"]; "DP_MEAN" := ["7"; "8"] ]} (samples record).

(** A record none of whose samples has a DP. *)
Definition record_none : Variant :=
  mkVariant {[ "NS" := ["3"] ]} [("S3", S3)].

Definition aggregate := aggregate convert_string convert_double.
Definition main := main convert_string convert_double addHeaderLine.

End Example.

(** ** The command line

    [main] from its first statement: the loop over the options, the check
    of the two field names, the choice of the input, and then the run
    above. *)

(** One call of [getopt_long] that does not return [-1]: the value
    returned, [optarg] (a null pointer is [None]), the index stored
    through the last argument, and what the call itself wrote to the
    error stream. *)
Module Getopt.

Record call : Type := mkCall {
  c : Z;
  optarg : option string;
  option_index : nat;
  complaint : list string
}.

(** The value of a character constant. *)
Definition short (ch : ascii) : Z := Z.of_N (N_of_ascii ch).

(** The [name] members of [long_options], before the terminating entry;
    every [flag] member is 0. *)
Definition long_options : list string :=
  ["help"; "field"; "info"; "average"; "median"; "min"; "max"].

End Getopt.

(** What is written to the standard output: the text of [printf], and
    what the run streams to [cout]. *)
Inductive Written : Type :=
  | Printed (text : string)
  | Streamed (e : Emitted).

(** How the process ends: [exit(code)] or [return code] from [main],
    [abort()], or no defined behaviour. *)
Inductive Ending : Type :=
  | Exit (code : Z)
  | Abort
  | NoBehaviour.

Record Process : Type := mkProcess {
  stdout : list Written;
  stderr : list string;
  ending : Ending
}.

(** The lines [printSummary] writes to [cerr]. *)
Definition usage (argv0 : string) : list string :=
  [ "usage: " +:+ argv0 +:+ " [options] <vcf file>";
    EmptyString;
    "options:";
    "    -f, --field         Add information about this field in samples to INFO column";
    "    -i, --info          Store the computed statistic in this info field";
    "    -a, --average       Take the mean of samples for field (default)";
    "    -m, --median        Use the median";
    "    -n, --min           Use the min";
    "    -x, --max           Use the max";
    EmptyString;
    "Take annotations given in the per-sample fields and add the mean, median, min, or max";
    "to the site-level INFO.";
    EmptyString;
    EmptyString;
    "Type: transformation";
    EmptyString ].

(** [printSummary(argv)] ends the process with [exit(0)]; [out] and [err]
    are what the two streams hold when it is called.  [argv[0]] is read. *)
Definition printSummary (argv : list string) (out : list Written) (err : list string)
    : Process :=
  match argv with
  | argv0 :: _ => mkProcess out (err ++ usage argv0) (Exit 0)
  | [] => mkProcess out err NoBehaviour
  end.

(** What the option loop carries from one call to the next. *)
Record Parsing : Type := mkParsing {
  parsed : Options;
  out_so_far : list Written;
  err_so_far : list string
}.

(** The [switch (c)] for one call.  The loop goes on ([inl]) or the
    process ends ([inr]).  After [printSummary] nothing runs: the
    [exit(0)] of case ['h'] and the [exit(1)] of case ['?'] are not
    reached. *)
Definition option_case (argv : list string) (r : Getopt.call) (p : Parsing)
    : Parsing + Process :=
  let o := parsed p in
  let out := out_so_far p in
  let err := err_so_far p ++ Getopt.complaint r in
  let c := Getopt.c r in
  if (c =? 0)%Z then
    match Getopt.long_options !! Getopt.option_index r with
    | Some name =>
        let with_arg :=
          match Getopt.optarg r with
          | Some a => [Printed (" with arg " +:+ a)]
          | None => []
          end in
        inl (mkParsing o
               (out ++ [Printed ("option " +:+ name)] ++ with_arg
                    ++ [Printed (String (ascii_of_nat 10) EmptyString)])
               err)
    | None => inr (mkProcess out err NoBehaviour)
    end
  else if (c =? Getopt.short "f")%Z then
    match Getopt.optarg r with
    | Some a => inl (mkParsing (mkOptions a (infoField o) (statType o)) out err)
    | None => inr (mkProcess out err NoBehaviour)
    end
  else if (c =? Getopt.short "i")%Z then
    match Getopt.optarg r with
    | Some a => inl (mkParsing (mkOptions (sampleField o) a (statType o)) out err)
    | None => inr (mkProcess out err NoBehaviour)
    end
  else if (c =? Getopt.short "a")%Z then
    inl (mkParsing (mkOptions (sampleField o) (infoField o) MEAN) out err)
  else if (c =? Getopt.short "m")%Z then
    inl (mkParsing (mkOptions (sampleField o) (infoField o) MEDIAN) out err)
  else if (c =? Getopt.short "n")%Z then
    inl (mkParsing (mkOptions (sampleField o) (infoField o) MIN) out err)
  else if (c =? Getopt.short "x")%Z then
    inl (mkParsing (mkOptions (sampleField o) (infoField o) MAX) out err)
  else if (c =? Getopt.short "h")%Z then inr (printSummary argv out err)
  else if (c =? Getopt.short "?")%Z then inr (printSummary argv out err)
  else inr (mkProcess out err Abort).

(** The [while (true)] loop: [calls] are the returns of [getopt_long] in
    order; after the last of them, and at a [-1] among them, the loop is
    left by [break]. *)
Fixpoint option_loop (argv : list string) (calls : list Getopt.call) (p : Parsing)
    : Parsing + Process :=
  match calls with
  | [] => inl p
  | r :: calls' =>
      if (Getopt.c r =? -1)%Z then inl p
      else
        match option_case argv r p with
        | inl p' => option_loop argv calls' p'
        | inr ending => inr ending
        end
  end.

(** The arguments of [main], the calls of [getopt_long] they give rise
    to, and [optind] when the loop is left. *)
Record Invocation : Type := mkInvocation {
  argc : Z;
  argv : list string;
  calls : list Getopt.call;
  optind : Z
}.

(** The run, continued from what the option loop left on the streams. *)
Definition after_options (out : list Written) (err : list string) (r : Run) : Process :=
  mkProcess (out ++ (Streamed <$> cout r)) (err ++ cerr r)
            (match status r with Some code => Exit code | None => NoBehaviour end).

Section CommandLine.

Variable convert_string : string -> bool * double.
Variable convert_double : double -> string.
Variable addHeaderLine : string -> string -> string.

(** [variantFile.open(inputFilename)] and [variantFile.open(std::cin)]:
    the header and the records of the input when [is_open()] holds
    afterwards, [None] when it does not. *)
Variable open_file : string -> option (string * list Variant).
Variable open_cin : option (string * list Variant).

Definition main_from_argv (inv : Invocation) : Process :=
  if (argc inv =? 1)%Z then printSummary (argv inv) [] []
  else
    match option_loop (argv inv) (calls inv)
            (mkParsing (mkOptions EmptyString EmptyString MEAN) [] []) with
    | inr ending => ending
    | inl p =>
        let o := parsed p in
        if bool_decide (infoField o = EmptyString)
           || bool_decide (sampleField o = EmptyString)
        then mkProcess (out_so_far p) (err_so_far p ++ [missing_field_error]) (Exit 1)
        else
          let opened :=
            if (optind inv =? argc inv - 1)%Z then
              if (optind inv <? 0)%Z then None
              else open_file <$> (argv inv !! Z.to_nat (optind inv))
            else Some open_cin in
          match opened with
          | None => mkProcess (out_so_far p) (err_so_far p) NoBehaviour
          | Some None => mkProcess (out_so_far p) (err_so_far p) (Exit 1)
          | Some (Some (header, vars)) =>
              after_options (out_so_far p) (err_so_far p)
                (main_loop convert_string convert_double o vars
                   [HeaderText (addHeaderLine header (header_line o))])
          end
    end.

End CommandLine.

(** ** Further words for the properties below *)

Module Notions.

#[global] Instance double_eq_dec : EqDecision double.
Proof. unfold double. solve_decision. Defined.

(** The entry of [sample] for [field] is absent or holds one value. *)
Definition one_or_none (field : string) (sample : gmap string (list string)) : Prop :=
  sample !! field = None \/ exists s, sample !! field = Some [s].

#[global] Instance one_or_none_dec field sample : Decision (one_or_none field sample).
Proof.
  unfold one_or_none. destruct (sample !! field) as [[|s [|s' values]]|].
  - right. intros [H|[s H]]; discriminate.
  - left. right. by exists s.
  - right. intros [H|[s0 H]]; discriminate.
  - left. by left.
Defined.

(** The sample has an entry for [field]. *)
Definition carries (field : string) (sample : gmap string (list string)) : Prop :=
  is_Some (sample !! field).

(** The first value of the sample's entry for [field], when there is one. *)
Definition first_value (field : string) (sample : gmap string (list string))
    : option string :=
  sample !! field ≫= head.

(** A call of [getopt_long] that sets a local of [main] and lets the
    loop go on: [-f] or [-i] with their argument, or one of the four
    selectors. *)
Definition sets (r : Getopt.call) : Prop :=
  ((Getopt.c r = Getopt.short "f" \/ Getopt.c r = Getopt.short "i")
   /\ is_Some (Getopt.optarg r)) \/
  Getopt.c r = Getopt.short "a" \/ Getopt.c r = Getopt.short "m" \/
  Getopt.c r = Getopt.short "n" \/ Getopt.c r = Getopt.short "x".

#[global] Instance sets_dec (r : Getopt.call) : Decision (sets r).
Proof. unfold sets. apply _. Defined.

(** The argument a call gives to the option [ch]. *)
Definition given (ch : ascii) (r : Getopt.call) : option string :=
  if (Getopt.c r =? Getopt.short ch)%Z then Getopt.optarg r else None.

(** The statistic a call selects. *)
Definition selects (r : Getopt.call) : option StatType :=
  if (Getopt.c r =? Getopt.short "a")%Z then Some MEAN
  else if (Getopt.c r =? Getopt.short "m")%Z then Some MEDIAN
  else if (Getopt.c r =? Getopt.short "n")%Z then Some MIN
  else if (Getopt.c r =? Getopt.short "x")%Z then Some MAX
  else None.

(** The options as the last call of each kind leaves them. *)
Definition last_wins (o : Options) (calls : list Getopt.call) : Options :=
  mkOptions (default (sampleField o) (last (omap (given "f") calls)))
            (default (infoField o) (last (omap (given "i") calls)))
            (default (statType o) (last (omap selects calls))).

End Notions.

(** ** An invocation, for the worked examples of the command line *)

Module Invoked.

Definition f_DP : Getopt.call := Getopt.mkCall (Getopt.short "f") (Some "DP") 0 [].
Definition i_DP_MEAN : Getopt.call :=
  Getopt.mkCall (Getopt.short "i") (Some "DP_MEAN") 0 [].
Definition m : Getopt.call := Getopt.mkCall (Getopt.short "m") None 0 [].
Definition a : Getopt.call := Getopt.mkCall (Getopt.short "a") None 0 [].

(** [vcfsample2info -f DP -m -a -i DP_MEAN in.vcf] *)
Definition with_file : Invocation :=
  mkInvocation 8 ["vcfsample2info"; "-f"; "DP"; "-m"; "-a"; "-i"; "DP_MEAN"; "in.vcf"]
               [f_DP; m; a; i_DP_MEAN] 7.



(** [vcfsample2info -m -f DP in.vcf] *)
Definition without_info : Invocation :=
  mkInvocation 5 ["vcfsample2info"; "-m"; "-f"; "DP"; "in.vcf"] [m; f_DP] 4.

Definition open_file (name : string) : option (string * list Variant) :=
  if bool_decide (name = "in.vcf") then Some ("#CHROM", [Example.record]) else None.

Definition open_cin : option (string * list Variant) := Some ("#CHROM", []).

Definition main_from_argv : Invocation -> Process :=
  main_from_argv Example.convert_string Example.convert_double Example.addHeaderLine
                 open_file open_cin.

End Invoked.

(** * Properties *)

(** ** The order [<] on doubles

    [<] is a strict order on all doubles, and any value that is not a NaN
    falls on one side of a strict inequality. *)

Section Order.

Local Ltac order_cases :=
  repeat match goal with
  | |- context [Z.compare ?x ?y] => destruct (Z.compare_spec x y)
  | H : context [Z.compare ?x ?y] |- _ => destruct (Z.compare_spec x y)
  | |- context [Pos.compare_cont Eq ?x ?y] =>
      change (Pos.compare_cont Eq x y) with (Pos.compare x y);
      destruct (Pos.compare_spec x y)
  | H : context [Pos.compare_cont Eq ?x ?y] |- _ =>
      change (Pos.compare_cont Eq x y) with (Pos.compare x y) in H;
      destruct (Pos.compare_spec x y)
  end; simpl in *; try discriminate; try reflexivity; try lia.

Lemma ltb_irrefl (a : double) : ltb a a = false.
Proof.
  unfold ltb, SFltb. destruct a as [[]|[]| |[] m e]; simpl; try reflexivity;
    rewrite Z.compare_refl; change (Pos.compare_cont Eq m m) with (Pos.compare m m);
    rewrite Pos.compare_refl; reflexivity.
Qed.

Lemma ltb_trans (a b c : double) :
  ltb a b = true -> ltb b c = true -> ltb a c = true.
Proof.
  unfold ltb, SFltb.
  destruct a as [[]|[]| |[] ma ea], b as [[]|[]| |[] mb eb], c as [[]|[]| |[] mc ec];
    simpl; try discriminate; try reflexivity; intros Hab Hbc; order_cases.
Qed.

Lemma ltb_asym (a b : double) : ltb a b = true -> ltb b a = false.
Proof.
  intros Hab. destruct (ltb b a) eqn:Hba; [|reflexivity].
  rewrite <- (ltb_irrefl a). symmetry. exact (ltb_trans _ _ _ Hab Hba).
Qed.

Lemma ltb_neg_trans (a b c : double) :
  is_nan c = false -> ltb a b = true -> ltb a c = true \/ ltb c b = true.
Proof.
  unfold ltb, SFltb.
  destruct a as [[]|[]| |[] ma ea], b as [[]|[]| |[] mb eb], c as [[]|[]| |[] mc ec];
    simpl; try discriminate; intros _ Hab; try (left; reflexivity);
    try (right; reflexivity); try discriminate.
  all: order_cases; auto.
Qed.

(** Two values, none a NaN and none below the other, compare equal. *)
Lemma eqb_of_not_ltb (a b : double) :
  is_nan a = false -> is_nan b = false ->
  ltb a b = false -> ltb b a = false -> eqb a b = true.
Proof.
  unfold ltb, eqb, SFltb, SFeqb.
  destruct a as [[]|[]| |[] ma ea], b as [[]|[]| |[] mb eb];
    simpl; try discriminate; try reflexivity; intros _ _ Hab Hba; order_cases.
Qed.

(** [b <= a] and [a < c], with [b] not a NaN, put [b] below [c]. *)
Lemma le_lt_trans (a b c : double) :
  is_nan b = false -> ltb a b = false -> ltb a c = true -> ltb b c = true.
Proof.
  intros Hb Hab Hac.
  destruct (ltb_neg_trans a c b Hb Hac) as [H|H]; [congruence|exact H].
Qed.

(** [a < c] and [c <= b], with [b] not a NaN, put [a] below [b]. *)
Lemma lt_le_trans (a b c : double) :
  is_nan b = false -> ltb a c = true -> ltb b c = false -> ltb a b = true.
Proof.
  intros Hb Hac Hbc.
  destruct (ltb_neg_trans a c b Hb Hac) as [H|H]; [exact H|congruence].
Qed.

End Order.

(** ** The standard algorithms *)

Section Algorithms.

Lemma filter_split_perm (f : double -> bool) (l : list double) :
  l ≡ₚ List.filter f l ++ List.filter (fun y => negb (f y)) l.
Proof.
  induction l as [|a l IH]; simpl; [done|].
  destruct (f a); simpl.
  - by constructor.
  - rewrite <- Permutation_middle. by constructor.
Qed.

Lemma filter_split_length (f : double -> bool) (l : list double) :
  length (List.filter f l) + length (List.filter (fun y => negb (f y)) l) = length l.
Proof.
  rewrite <- length_app. symmetry. apply Permutation_length, filter_split_perm.
Qed.

(** [nth_element] keeps the values of the range, whatever [nth] is. *)
Lemma select_perm (fuel nth : nat) (v : list double) : v ≡ₚ Std.select fuel nth v.
Proof.
  revert nth v. induction fuel as [|fuel IH]; intros nth [|pivot rest]; simpl; try done.
  pose proof (filter_split_perm (fun y => ltb y pivot) rest) as Hsplit.
  destruct (Nat.compare nth _).
  - rewrite <- Permutation_middle. by constructor.
  - rewrite <- Permutation_middle, <- IH. by constructor.
  - rewrite <- Permutation_middle, <- IH. by constructor.
Qed.

Lemma nth_element_perm (nth : nat) (v : list double) : v ≡ₚ Std.nth_element nth v.
Proof. apply select_perm. Qed.

(** With one pivot a value of the range to spare, the selection leaves
    the range partitioned at [nth]. *)
Lemma select_partitioned (fuel nth : nat) (v : list double) :
  length v <= fuel -> nth < length v -> Std.partitioned_at nth (Std.select fuel nth v).
Proof.
  revert nth v. induction fuel as [|fuel IH]; intros nth [|pivot rest]; simpl;
    intros Hfuel Hnth; try lia.
  pose proof (filter_split_length (fun y => ltb y pivot) rest) as Hlen.
  set (below := List.filter (fun y => ltb y pivot) rest) in *.
  set (above := List.filter (fun y => negb (ltb y pivot)) rest) in *.
  assert (Hbelow : Forall (fun y => ltb y pivot = true) below).
  { apply Forall_forall. intros y Hy. apply list_elem_of_In, filter_In in Hy. tauto. }
  assert (Habove : Forall (fun y => ltb y pivot = false) above).
  { apply Forall_forall. intros y Hy. apply list_elem_of_In, filter_In in Hy.
    destruct Hy as [_ Hy]. by apply negb_true_iff in Hy. }
  destruct (Nat.compare_spec nth (length below)) as [Heq|Hlt|Hgt].
  - exists below, pivot, above. repeat split; [done| |done].
    eapply Forall_impl; [exact Hbelow|]. intros y Hy. by apply ltb_asym.
  - destruct (IH nth below) as (pre & x & post & Hw & Hpre & Hl & Hr); [lia|lia|].
    assert (Hx : ltb x pivot = true).
    { rewrite Forall_forall in Hbelow. apply Hbelow.
      rewrite (select_perm fuel nth below), Hw. set_solver. }
    exists pre, x, (post ++ pivot :: above). rewrite Hw, <- app_assoc. simpl.
    repeat split; [done|done|].
    apply Forall_app. split; [done|]. constructor.
    + by apply ltb_asym.
    + eapply Forall_impl; [exact Habove|]. intros y Hy. simpl in Hy.
      destruct (ltb y x) eqn:Hyx; [|done].
      rewrite <- Hy. symmetry. by apply (ltb_trans y x pivot).
  - destruct (IH (nth - S (length below)) above) as (pre & x & post & Hw & Hpre & Hl & Hr);
      [lia|lia|].
    assert (Hx : ltb x pivot = false).
    { rewrite Forall_forall in Habove. apply Habove.
      rewrite (select_perm fuel (nth - S (length below)) above), Hw. set_solver. }
    exists (below ++ pivot :: pre), x, post. rewrite Hw, <- app_assoc. simpl.
    repeat split; [rewrite length_app; simpl; lia| |done].
    apply Forall_app. split; [|by constructor].
    eapply Forall_impl; [exact Hbelow|]. intros y Hy. simpl in Hy.
    destruct (ltb x y) eqn:Hxy; [|done].
    rewrite <- Hx. symmetry. by apply (ltb_trans x y pivot).
Qed.

Lemma nth_element_partitioned (nth : nat) (v : list double) :
  nth < length v -> Std.partitioned_at nth (Std.nth_element nth v).
Proof. intros H. by apply select_partitioned. Qed.

End Algorithms.

(** ** A partitioned range against the sorted one

    Whatever rearrangement [nth_element] leaves, the value at [nth] is the
    one a sort puts there, up to [==].  The argument counts the values
    below, and the values not above, the selected one. *)

Section Selection.

Implicit Types (v w s : list double) (x : double) (p : double -> bool).

Lemma filter_count_perm p v w :
  v ≡ₚ w -> length (List.filter p v) = length (List.filter p w).
Proof.
  induction 1 as [|a l l' _ IH|a b l|l l' l'' _ IH1 _ IH2]; simpl.
  - done.
  - destruct (p a); simpl; congruence.
  - destruct (p a), (p b); reflexivity.
  - congruence.
Qed.

Lemma filter_none p v : Forall (fun y => p y = false) v -> List.filter p v = [].
Proof.
  induction 1 as [|a l Ha _ IH]; simpl; [done|]. by rewrite Ha.
Qed.

Lemma filter_all p v : Forall (fun y => p y = true) v -> List.filter p v = v.
Proof.
  induction 1 as [|a l Ha _ IH]; simpl; [done|]. by rewrite Ha, IH.
Qed.

Lemma filter_length_le p v : length (List.filter p v) <= length v.
Proof.
  induction v as [|a l IH]; simpl; [done|]. destruct (p a); simpl; lia.
Qed.

(** In a sorted sequence, at most [k] values below [x] leave the value at
    offset [k] not below [x]. *)
Lemma sorted_not_below s x k :
  Spec.sorted s -> Spec.ordered_values s -> k < length s ->
  length (List.filter (fun y => ltb y x) s) <= k ->
  exists m, s !! k = Some m /\ ltb m x = false.
Proof.
  intros Hs. revert k. induction Hs as [|a t Ht IH Ha]; intros k Hnan Hk Hcount.
  - simpl in Hk. lia.
  - apply Forall_cons in Hnan as [Hna Hnt]. simpl in Hcount, Hk.
    destruct k as [|k]; simpl.
    + exists a. split; [done|]. destruct (ltb a x); [simpl in Hcount; lia|done].
    + destruct (ltb a x) eqn:Hax.
      * simpl in Hcount. apply IH; [done|lia|lia].
      * destruct (lookup_lt_is_Some_2 t k) as [m Hm]; [lia|].
        exists m. split; [done|].
        destruct (ltb m x) eqn:Hmx; [|done].
        rewrite Forall_forall in Ha.
        assert (Hma : ltb m a = false) by (apply Ha; by eapply list_elem_of_lookup_2).
        rewrite <- Hax. symmetry. by apply (le_lt_trans m a x).
Qed.

(** In a sorted sequence, more than [k] values not above [x] leave the
    value at offset [k] not above [x]. *)
Lemma sorted_not_above s x k :
  Spec.sorted s -> Spec.ordered_values s ->
  k < length (List.filter (fun y => negb (ltb x y)) s) ->
  exists m, s !! k = Some m /\ ltb x m = false.
Proof.
  intros Hs. revert k. induction Hs as [|a t Ht IH Ha]; intros k Hnan Hcount.
  - simpl in Hcount. lia.
  - apply Forall_cons in Hnan as [Hna Hnt]. simpl in Hcount.
    destruct (ltb x a) eqn:Hxa; simpl in Hcount.
    + exfalso. rewrite filter_none in Hcount; [simpl in Hcount; lia|].
      rewrite Forall_forall in Ha, Hnt. apply Forall_forall. intros y Hy.
      apply negb_false_iff. apply (lt_le_trans x y a); auto. by apply Ha.
    + destruct k as [|k]; simpl; [by exists a|]. apply IH; [done|lia].
Qed.

(** The two counts in a range partitioned at [nth]. *)
Lemma partitioned_counts pre post x :
  Forall (fun y => ltb x y = false) pre ->
  Forall (fun y => ltb y x = false) post ->
  length (List.filter (fun y => ltb y x) (pre ++ x :: post)) <= length pre /\
  length pre < length (List.filter (fun y => negb (ltb x y)) (pre ++ x :: post)).
Proof.
  intros Hpre Hpost. rewrite !List.filter_app, !length_app. simpl.
  rewrite ltb_irrefl. simpl. split.
  - rewrite (filter_none _ post Hpost). simpl.
    pose proof (filter_length_le (fun y => ltb y x) pre). lia.
  - rewrite (filter_all (fun y => negb (ltb x y)) pre); [lia|].
    eapply Forall_impl; [exact Hpre|]. intros y Hy. simpl in Hy. by rewrite Hy.
Qed.

Lemma partitioned_sorted_agree nth w s :
  Spec.ordered_values w -> w ≡ₚ s -> Spec.sorted s -> Std.partitioned_at nth w ->
  exists x m, w !! nth = Some x /\ s !! nth = Some m /\ eqb x m = true.
Proof.
  intros Hnan Hperm Hs (pre & x & post & -> & Hlen & Hpre & Hpost).
  assert (Hnans : Spec.ordered_values s).
  { unfold Spec.ordered_values. by rewrite <- Hperm. }
  destruct (partitioned_counts pre post x Hpre Hpost) as [Hlo Hhi].
  rewrite (filter_count_perm _ _ _ Hperm) in Hlo.
  rewrite (filter_count_perm _ _ _ Hperm) in Hhi. rewrite Hlen in Hlo, Hhi.
  destruct (sorted_not_above s x nth Hs Hnans Hhi) as (m & Hm & Hxm).
  destruct (sorted_not_below s x nth Hs Hnans) as (m' & Hm' & Hmx);
    [by eapply lookup_lt_Some|done|].
  assert (m' = m) as -> by congruence.
  exists x, m. split; [|split; [done|]].
  - rewrite lookup_app_r by lia. by replace (nth - length pre) with 0 by lia.
  - unfold Spec.ordered_values in Hnan, Hnans. rewrite Forall_forall in Hnan, Hnans.
    apply eqb_of_not_ltb; auto.
    + apply Hnan. set_solver.
    + apply Hnans. by eapply list_elem_of_lookup_2.
Qed.

End Selection.

(** ** The extremes and the sum *)

Section Extremes.

Implicit Types (v pre rest : list double) (r x : double).

(** The loop of [min_element], entered with [result] pointing at [r] and
    [pre] already visited: it ends on a value of the vector that no value
    of the vector is below. *)
Lemma min_element_loop_spec v rest : forall pre result r,
  v = pre ++ rest -> v !! result = Some r ->
  Forall (fun y => ltb y r = false) pre ->
  exists x, v !! Std.min_element_loop result r (length pre) rest = Some x /\
            Forall (fun y => ltb y x = false) v.
Proof.
  induction rest as [|a rest IH]; intros pre result r Hv Hr Hpre; simpl.
  - exists r. split; [done|]. by rewrite Hv, app_nil_r.
  - assert (Hv' : v = (pre ++ [a]) ++ rest) by (by rewrite <- app_assoc).
    assert (Hlen : S (length pre) = length (pre ++ [a])) by (rewrite length_app; simpl; lia).
    rewrite Hlen. destruct (ltb a r) eqn:Har.
    + apply IH; [done| |].
      * rewrite Hv. by apply list_lookup_middle.
      * apply Forall_app. split; [|constructor; [apply ltb_irrefl|done]].
        eapply Forall_impl; [exact Hpre|]. intros y Hy. simpl in Hy.
        destruct (ltb y a) eqn:Hya; [|done].
        rewrite <- Hy. symmetry. by apply (ltb_trans y a r).
    + apply IH; [done|done|]. apply Forall_app. split; [done|]. by constructor.
Qed.

Lemma max_element_loop_spec v rest : forall pre result r,
  v = pre ++ rest -> v !! result = Some r ->
  Forall (fun y => ltb r y = false) pre ->
  exists x, v !! Std.max_element_loop result r (length pre) rest = Some x /\
            Forall (fun y => ltb x y = false) v.
Proof.
  induction rest as [|a rest IH]; intros pre result r Hv Hr Hpre; simpl.
  - exists r. split; [done|]. by rewrite Hv, app_nil_r.
  - assert (Hv' : v = (pre ++ [a]) ++ rest) by (by rewrite <- app_assoc).
    assert (Hlen : S (length pre) = length (pre ++ [a])) by (rewrite length_app; simpl; lia).
    rewrite Hlen. destruct (ltb r a) eqn:Hra.
    + apply IH; [done| |].
      * rewrite Hv. by apply list_lookup_middle.
      * apply Forall_app. split; [|constructor; [apply ltb_irrefl|done]].
        eapply Forall_impl; [exact Hpre|]. intros y Hy. simpl in Hy.
        destruct (ltb a y) eqn:Hay; [|done].
        rewrite <- Hy. symmetry. by apply (ltb_trans r a y).
    + apply IH; [done|done|]. apply Forall_app. split; [done|]. by constructor.
Qed.

Lemma min_element_spec v :
  v <> [] ->
  exists x, v !! Std.min_element v = Some x /\ Forall (fun y => ltb y x = false) v.
Proof.
  destruct v as [|a rest]; [done|]. intros _. simpl.
  apply (min_element_loop_spec (a :: rest) rest [a] 0 a); [done|done|].
  constructor; [apply ltb_irrefl|done].
Qed.

Lemma max_element_spec v :
  v <> [] ->
  exists x, v !! Std.max_element v = Some x /\ Forall (fun y => ltb x y = false) v.
Proof.
  destruct v as [|a rest]; [done|]. intros _. simpl.
  apply (max_element_loop_spec (a :: rest) rest [a] 0 a); [done|done|].
  constructor; [apply ltb_irrefl|done].
Qed.

(** [accumulate], entered after [pre] with the sum of [pre], ends with the
    sum of the whole vector. *)
Lemma accumulate_partial_sum rest : forall pre,
  Std.accumulate rest (Spec.partial_sum (pre ++ rest) (length pre))
  = Spec.partial_sum (pre ++ rest) (length (pre ++ rest)).
Proof.
  induction rest as [|a rest IH]; intros pre; simpl.
  - by rewrite app_nil_r.
  - specialize (IH (pre ++ [a])). rewrite <- app_assoc in IH. simpl in IH.
    rewrite <- IH. f_equal. rewrite length_app. simpl.
    replace (length pre + 1) with (S (length pre)) by lia. simpl.
    by rewrite list_lookup_middle.
Qed.

End Extremes.

(** ** The statistics *)

Section Statistics.

Implicit Types (v s : list double) (r x : double).

Lemma leb_of_not_ltb (a b : double) :
  is_nan a = false -> is_nan b = false -> ltb b a = false -> leb a b = true.
Proof.
  intros Ha Hb Hba. destruct (ltb a b) eqn:Hab.
  - unfold ltb, leb, SFltb, SFleb in *. by destruct (SFcompare a b) as [[]|].
  - pose proof (eqb_of_not_ltb a b Ha Hb Hab Hba) as Heq.
    unfold eqb, leb, SFeqb, SFleb in *. by destruct (SFcompare a b) as [[]|].
Qed.

(** C1. For every non-empty sequence of collected values (none a NaN, so
    that sorting them makes sense), [median] yields a value of the
    sequence that equals the element at 0-based index [n / 2] of the sorted
    sequence, whichever sort produced it.  For the values 1, 2, 3, 4 the
    result is 3, and not the average 2.5 of the two middle values. *)
Theorem median_is_sorted_middle :
  (forall v s,
      v <> [] -> Spec.ordered_values v -> v ≡ₚ s -> Spec.sorted s ->
      exists r m,
        statistic MEDIAN v = Ok r /\ r ∈ v /\
        s !! (length v / 2) = Some m /\ eqb r m = true) /\
  statistic MEDIAN (of_Z <$> [1; 2; 3; 4]%Z) = Ok (of_Z 3) /\
  of_Z 3 <> div (add (of_Z 2) (of_Z 3)) (of_Z 2).
Proof.
  split; [|split; [vm_compute; reflexivity|vm_compute; intros H; inversion H]].
  intros v s Hv Hnan Hperm Hs.
  set (n := length v / 2).
  assert (Hn : n < length v).
  { destruct v; [done|]. apply Nat.div_lt; simpl; lia. }
  pose proof (nth_element_perm n v) as Hw.
  destruct (partitioned_sorted_agree n (Std.nth_element n v) s) as (x & m & Hx & Hm & Heq).
  - unfold Spec.ordered_values. by rewrite <- Hw.
  - by rewrite <- Hw.
  - done.
  - by apply nth_element_partitioned.
  - assert (Hin : x ∈ Std.nth_element n v) by (by eapply list_elem_of_lookup_2).
    rewrite <- Hw in Hin.
    exists x, m. split; [|by split].
    unfold statistic, median, deref. cbn [snd]. fold n. by rewrite Hx.
Qed.

Lemma median_is_sorted_middle_witness :
  exists r m,
    statistic MEDIAN (of_Z <$> [3; 1; 4; 2]%Z) = Ok r /\ r ∈ (of_Z <$> [3; 1; 4; 2]%Z) /\
    Spec.sort (of_Z <$> [3; 1; 4; 2]%Z) !! (length (of_Z <$> [3; 1; 4; 2]%Z) / 2) = Some m /\
    eqb r m = true.
Proof.
  apply (proj1 median_is_sorted_middle).
  - discriminate.
  - apply (bool_decide_unpack _). vm_compute. exact I.
  - symmetry. apply merge_sort_Permutation.
  - apply (bool_decide_unpack _). vm_compute. exact I.
Defined.

(** C6. For the statistic Mean the result is the arithmetic mean
    [(v1 + ... + vn) / n] of the collected values, the sum taken in the
    order of the sequence and every operation being that of doubles.
    The values 10 and 20 have the mean 15. *)
Theorem mean_is_arithmetic_mean :
  (forall v, statistic MEAN v = Ok (Spec.arithmetic_mean v)) /\
  statistic MEAN (of_Z <$> [10; 20]%Z) = Ok (of_Z 15).
Proof.
  split; [|vm_compute; reflexivity].
  intros v. unfold statistic, mean, Spec.arithmetic_mean. do 2 f_equal.
  exact (accumulate_partial_sum v []).
Qed.

(** C7. For the statistics Min and Max and every non-empty sequence of
    collected values, the result is a value of the sequence with no value
    below it (Min), respectively above it (Max); when no value is a NaN
    it compares [<=] (respectively [>=]) to every collected value. *)
Theorem min_max_are_extremes v :
  v <> [] ->
  (exists r, statistic MIN v = Ok r /\ Spec.minimum_of r v /\
             (Spec.ordered_values v -> forall y, y ∈ v -> leb r y = true)) /\
  (exists r, statistic MAX v = Ok r /\ Spec.maximum_of r v /\
             (Spec.ordered_values v -> forall y, y ∈ v -> leb y r = true)).
Proof.
  intros Hv. split.
  - destruct (min_element_spec v Hv) as (x & Hx & Hall).
    rewrite Forall_forall in Hall.
    assert (Hin : x ∈ v) by (by eapply list_elem_of_lookup_2).
    exists x. unfold statistic, deref. rewrite Hx. repeat split; [done|exact Hall|].
    intros Hnan y Hy. unfold Spec.ordered_values in Hnan. rewrite Forall_forall in Hnan.
    apply leb_of_not_ltb; auto.
  - destruct (max_element_spec v Hv) as (x & Hx & Hall).
    rewrite Forall_forall in Hall.
    assert (Hin : x ∈ v) by (by eapply list_elem_of_lookup_2).
    exists x. unfold statistic, deref. rewrite Hx. repeat split; [done|exact Hall|].
    intros Hnan y Hy. unfold Spec.ordered_values in Hnan. rewrite Forall_forall in Hnan.
    apply leb_of_not_ltb; auto.
Qed.

Lemma min_max_are_extremes_witness :
  (exists r, statistic MIN (of_Z <$> [3; 1; 4; 2]%Z) = Ok r /\
             Spec.minimum_of r (of_Z <$> [3; 1; 4; 2]%Z) /\
             (Spec.ordered_values (of_Z <$> [3; 1; 4; 2]%Z) ->
              forall y, y ∈ (of_Z <$> [3; 1; 4; 2]%Z) -> leb r y = true)) /\
  (exists r, statistic MAX (of_Z <$> [3; 1; 4; 2]%Z) = Ok r /\
             Spec.maximum_of r (of_Z <$> [3; 1; 4; 2]%Z) /\
             (Spec.ordered_values (of_Z <$> [3; 1; 4; 2]%Z) ->
              forall y, y ∈ (of_Z <$> [3; 1; 4; 2]%Z) -> leb y r = true)).
Proof.
  apply (min_max_are_extremes (of_Z <$> [3; 1; 4; 2]%Z)). discriminate.
Defined.

End Statistics.

Example min_of_3142 : statistic MIN (of_Z <$> [3; 1; 4; 2]%Z) = Ok (of_Z 1).
Proof. vm_compute. reflexivity. Qed.

Example max_of_3142 : statistic MAX (of_Z <$> [3; 1; 4; 2]%Z) = Ok (of_Z 4).
Proof. vm_compute. reflexivity. Qed.

Example mean_of_1234 :
  statistic MEAN (of_Z <$> [1; 2; 3; 4]%Z) = Ok (div (of_Z 5) (of_Z 2)).
Proof. vm_compute. reflexivity. Qed.

(** ** The header line *)

(** C3. The line handed to [addHeaderLine] has no space between
    [generated by] and the name of the statistic, for every choice of the
    options: it is never the line of the specification.  For the
    options [--field DP --info DP_MEAN --average] it reads
    [generated bymean of]. *)
Theorem header_line_runs_words_together :
  (forall o, header_line o <> Spec.info_declaration o) /\
  header_line (mkOptions "DP" "DP_MEAN" MEAN) =
    "##INFO=<ID=DP_MEAN,Number=1,Type=Float,Description=" +:+ quote
    +:+ "Summary statistic generated bymean of per-sample values of DP " +:+ quote
    +:+ ">".
Proof.
  split; [|reflexivity].
  intros [field dest t]. unfold header_line, Spec.info_declaration. cbn [infoField sampleField statType].
  intros H.
  apply (inj (String.append _)) in H. apply (inj (String.append _)) in H.
  apply (inj (String.append _)) in H. apply (inj (String.append _)) in H.
  destruct t; discriminate H.
Qed.

(** ** The loop over the samples and the update of the record *)

Section Aggregation.

Variable convert_string : string -> bool * double.
Variable convert_double : double -> string.
Variable addHeaderLine : string -> string -> string.

Implicit Types (o : Options) (var : Variant) (vals : list double).
Implicit Types (ss : list (string * gmap string (list string))).
Implicit Types (sample : gmap string (list string)) (field name : string).

Local Abbreviation collect := (collect convert_string).
Local Abbreviation aggregate := (aggregate convert_string convert_double).
Local Abbreviation main_loop := (main_loop convert_string convert_double).
Local Abbreviation main := (main convert_string convert_double addHeaderLine).

(** The loop over two runs of samples is the loop over the first, then
    the loop over the second. *)
Lemma collect_app field ss1 ss2 vals :
  collect field (ss1 ++ ss2) vals = vals' ← collect field ss1 vals; collect field ss2 vals'.
Proof.
  revert vals. induction ss1 as [|[name sample] ss1 IH]; intros vals; simpl; [done|].
  destruct (sample !! field) as [[|s values]|]; [done| |by apply IH].
  destruct (1 <? length (s :: values))%nat; [done|by apply IH].
Qed.

Lemma collect_lacks field name sample vals :
  Spec.lacks field sample -> collect field [(name, sample)] vals = Ok vals.
Proof. unfold Spec.lacks. intros H. simpl. by rewrite H. Qed.

Lemma collect_single field name sample s vals :
  sample !! field = Some [s] ->
  collect field [(name, sample)] vals = Ok (vals ++ [(convert_string s).2]).
Proof. intros H. simpl. by rewrite H. Qed.

(** The only diagnostic of the loop is the one on multiple values. *)
Lemma collect_fatal field ss vals d :
  collect field ss vals = Fatal d -> d = multiple_values_error.
Proof.
  revert vals. induction ss as [|[name sample] ss IH]; intros vals; simpl; [done|].
  destruct (sample !! field) as [[|s values]|]; [done| |by apply IH].
  destruct (1 <? length (s :: values))%nat; [congruence|by apply IH].
Qed.

Lemma collect_multi_valued field ss vals :
  Spec.entries_have_front field ss ->
  (exists s, s ∈ ss /\ Spec.multi_valued field s.2) ->
  collect field ss vals = Fatal multiple_values_error.
Proof.
  unfold Spec.entries_have_front. revert vals.
  induction ss as [|[name sample] ss IH]; intros vals Hfront (s & Hin & Hmulti).
  - by apply elem_of_nil in Hin.
  - apply Forall_cons in Hfront as [Hhead Hfront]. simpl in *.
    assert (Hrest : (name, sample) <> s ->
                    exists s, s ∈ ss /\ Spec.multi_valued field s.2).
    { intros Hne. exists s. split; [|done]. apply elem_of_cons in Hin as [->|]; done. }
    destruct (sample !! field) as [[|s0 values]|] eqn:Hfield; [done| |].
    + destruct (1 <? length (s0 :: values))%nat eqn:Hlen; [done|].
      apply IH; [done|]. apply Hrest. intros <-.
      destruct Hmulti as (values' & Hv & Hl). simpl in Hv.
      rewrite Hfield in Hv. injection Hv as <-.
      apply Nat.ltb_ge in Hlen. lia.
    + apply IH; [done|]. apply Hrest. intros <-.
      destruct Hmulti as (values' & Hv & _). simpl in Hv. congruence.
Qed.

Lemma collect_all_lack field ss vals :
  Forall (fun s => Spec.lacks field s.2) ss -> collect field ss vals = Ok vals.
Proof.
  induction 1 as [|[name sample] ss Hs _ IH]; simpl; [done|].
  unfold Spec.lacks in Hs. simpl in Hs. by rewrite Hs.
Qed.

(** The statistic is a value or it is undefined; it has no diagnostic. *)
Lemma statistic_not_fatal (t : StatType) vals d : statistic t vals <> Fatal d.
Proof.
  destruct t; unfold statistic, median, deref; cbn [snd]; try done;
    by destruct (_ !! _).
Qed.

(** [clear()] then [push_back(x)] under one key is the insertion of the
    one-element vector. *)
Lemma info_overwrite (m : gmap string (list string)) (k x : string) :
  push_back_at (clear_at m k) k x = <[k := [x]]> m.
Proof.
  unfold push_back_at, clear_at, subscript.
  destruct (m !! k); rewrite !lookup_insert_eq; simpl; by rewrite !insert_insert_eq.
Qed.

Lemma aggregate_ok o var var' :
  aggregate o var = Ok var' ->
  exists vals r,
    collect (sampleField o) (samples var) [] = Ok vals /\
    statistic (statType o) vals = Ok r /\
    var' = mkVariant (<[infoField o := [convert_double r]]> (info var)) (samples var).
Proof.
  unfold aggregate. intros H.
  destruct (collect _ _ _) as [vals| |] eqn:Hvals; [|done|done]. simpl in H.
  destruct (statistic _ _) as [r| |] eqn:Hr; [|done|done]. simpl in H.
  rewrite info_overwrite in H. exists vals, r. injection H as <-. done.
Qed.

Lemma main_loop_app o pre pre' rest out :
  Forall2 (fun v v' => aggregate o v = Ok v') pre pre' ->
  main_loop o (pre ++ rest) out = main_loop o rest (out ++ (VariantLine <$> pre')).
Proof.
  intros H. revert out. induction H as [|v v' pre pre' Hv _ IH]; intros out; simpl.
  - by rewrite app_nil_r.
  - rewrite Hv, IH, <- app_assoc. done.
Qed.

(** C8. A sample with no entry for the source field is skipped: wherever
    it stands among the samples, the loop collects what it collects
    without it, values and outcome alike, and so the record gets the
    same INFO. *)
Theorem sample_without_field_is_skipped o i field ss1 name sample ss2 vals :
  Spec.lacks field sample ->
  collect field (ss1 ++ (name, sample) :: ss2) vals = collect field (ss1 ++ ss2) vals /\
  (sampleField o = field ->
   info <$> aggregate o (mkVariant i (ss1 ++ (name, sample) :: ss2))
   = info <$> aggregate o (mkVariant i (ss1 ++ ss2))).
Proof.
  intros Hlacks.
  assert (Hskip : forall vals0,
    collect field (ss1 ++ (name, sample) :: ss2) vals0 = collect field (ss1 ++ ss2) vals0).
  { intros vals0. rewrite !collect_app. destruct (collect field ss1 vals0); simpl; try done.
    unfold Spec.lacks in Hlacks. by rewrite Hlacks. }
  split; [apply Hskip|]. intros Hfield. unfold aggregate. cbn [samples info].
  rewrite Hfield, Hskip.
  destruct (collect field (ss1 ++ ss2) []) as [vals0| |]; simpl; try done.
  destruct (statistic (statType o) vals0); done.
Qed.

(** C4. In a well-formed record (no sample has an empty entry for the
    source field), one sample with two values or more for the source
    field makes the aggregation fail with the diagnostic on multiple
    values; [main] then returns 1, and the output holds the header and
    the records before that one, neither that record nor a later one. *)
Theorem multiple_values_abort_the_run o header pre pre' var post :
  infoField o <> EmptyString -> sampleField o <> EmptyString ->
  Forall2 (fun v v' => aggregate o v = Ok v') pre pre' ->
  Spec.entries_have_front (sampleField o) (samples var) ->
  (exists s, s ∈ samples var /\ Spec.multi_valued (sampleField o) s.2) ->
  aggregate o var = Fatal multiple_values_error /\
  main o header (pre ++ var :: post) =
    mkRun (HeaderText (addHeaderLine header (header_line o)) :: (VariantLine <$> pre'))
          [multiple_values_error] (Some 1%Z).
Proof.
  intros Hinfo Hfield Hpre Hfront Hmulti.
  assert (Hvar : aggregate o var = Fatal multiple_values_error).
  { unfold aggregate. by rewrite (collect_multi_valued _ _ [] Hfront Hmulti). }
  split; [done|]. unfold main.
  rewrite !bool_decide_eq_false_2 by done. simpl.
  rewrite (main_loop_app o pre pre' _ _ Hpre). simpl. by rewrite Hvar.
Qed.

(** C5, as the program has it.  The flag of the conversion is dropped:
    the value the conversion leaves for the single entry of a sample is
    collected, the text being a number or not, and the loop goes on with
    the next sample.  No diagnostic but the one on multiple values
    exists. *)
Theorem unparsed_value_is_collected field ss1 name sample s ss2 vals :
  sample !! field = Some [s] -> (convert_string s).1 = false ->
  collect field (ss1 ++ (name, sample) :: ss2) vals =
    (vals' ← collect field ss1 vals; collect field ss2 (vals' ++ [(convert_string s).2])) /\
  (forall o var d, aggregate o var = Fatal d -> d = multiple_values_error).
Proof.
  intros Hs _. split.
  - rewrite collect_app. destruct (collect field ss1 vals); simpl; try done. by rewrite Hs.
  - intros o var d. unfold aggregate.
    destruct (collect _ _ _) as [vals0| |] eqn:Hvals; simpl; [|intros [= <-]|done].
    + destruct (statistic _ _) as [r| |] eqn:Hr; simpl; [done| |done].
      by apply statistic_not_fatal in Hr.
    + by apply collect_fatal in Hvals.
Qed.

(** C9. A record that is aggregated comes out with its INFO changed at
    the destination field only: that entry holds exactly one value, the
    text of the statistic of the collected values, whatever it held
    before; every other entry, and the samples, are as they were. *)
Theorem aggregate_overwrites_one_entry o var var' :
  aggregate o var = Ok var' ->
  exists vals r,
    collect (sampleField o) (samples var) [] = Ok vals /\
    statistic (statType o) vals = Ok r /\
    info var' !! infoField o = Some [convert_double r] /\
    (forall k, k <> infoField o -> info var' !! k = info var !! k) /\
    samples var' = samples var.
Proof.
  intros H. destruct (aggregate_ok o var var' H) as (vals & r & Hvals & Hr & ->).
  exists vals, r. simpl. repeat split; try done.
  - apply lookup_insert_eq.
  - intros k Hk. by apply lookup_insert_ne.
Qed.

(** C10. When no sample of a record has the source field, nothing is
    collected and nothing stands between the empty vector and the
    statistic: [median] reads [v[0]] of an empty vector, Min and Max
    dereference the end iterator, both undefined, and [mean] divides
    zero by a count of zero, a NaN that is written to the record. *)
Theorem empty_collection_is_not_guarded o var :
  Forall (fun s => Spec.lacks (sampleField o) s.2) (samples var) ->
  collect (sampleField o) (samples var) [] = Ok [] /\
  statistic MEDIAN [] = deref [] 0 /\
  statistic MIN [] = deref [] (length ([] : list double)) /\
  statistic MAX [] = deref [] (length ([] : list double)) /\
  deref [] 0 = Undefined /\
  statistic MEAN [] = Ok (div zero (of_nat 0)) /\ div zero (of_nat 0) = nan /\
  aggregate o var =
    match statType o with
    | MEAN => Ok (mkVariant (<[infoField o := [convert_double nan]]> (info var)) (samples var))
    | _ => Undefined
    end.
Proof.
  intros Hnone. pose proof (collect_all_lack _ _ [] Hnone) as Hvals.
  repeat split; try done.
  unfold aggregate. rewrite Hvals. simpl.
  destruct (statType o); try done. simpl. by rewrite info_overwrite.
Qed.

(** C2, as the program has it.  For the record with S1 at DP 10, S2 at
    DP 20 and S3 without DP, under [--field DP --info DP_MEDIAN --median],
    the values 10 and 20 are collected and the record comes out with
    DP_MEDIAN set to the text of 20, the value at index 1 of the two. *)
Theorem median_of_scenario_is_20 :
  (convert_string "10").2 = of_Z 10 -> (convert_string "20").2 = of_Z 20 ->
  collect "DP" (samples Example.record) [] = Ok [of_Z 10; of_Z 20] /\
  aggregate (mkOptions "DP" "DP_MEDIAN" MEDIAN) Example.record =
    Ok (mkVariant (<["DP_MEDIAN" := [convert_double (of_Z 20)]]> (info Example.record))
                  (samples Example.record)).
Proof.
  intros H10 H20.
  assert (Hvals : collect "DP" (samples Example.record) []
                  = Ok [(convert_string "10").2; (convert_string "20").2]).
  { vm_compute. reflexivity. }
  rewrite H10, H20 in Hvals. split; [done|].
  unfold aggregate. cbn [sampleField statType infoField]. rewrite Hvals.
  assert (Hr : statistic MEDIAN [of_Z 10; of_Z 20] = Ok (of_Z 20)).
  { vm_compute. reflexivity. }
  cbn [mbind result_bind]. rewrite Hr. cbn [mbind result_bind].
  by rewrite info_overwrite.
Qed.

End Aggregation.

(** ** The worked examples *)

Lemma sample_without_field_is_skipped_witness :
  collect Example.convert_string "DP"
    ([("S1", Example.S1); ("S2", Example.S2)] ++ ("S3", Example.S3) :: []) []
  = collect Example.convert_string "DP"
      ([("S1", Example.S1); ("S2", Example.S2)] ++ []) [] /\
  (sampleField (mkOptions "DP" "DP_MEAN" MEAN) = "DP" ->
   info <$> Example.aggregate (mkOptions "DP" "DP_MEAN" MEAN)
     (mkVariant ∅ ([("S1", Example.S1); ("S2", Example.S2)] ++ ("S3", Example.S3) :: []))
   = info <$> Example.aggregate (mkOptions "DP" "DP_MEAN" MEAN)
       (mkVariant ∅ ([("S1", Example.S1); ("S2", Example.S2)] ++ []))).
Proof.
  apply (sample_without_field_is_skipped Example.convert_string Example.convert_double).
  vm_compute. reflexivity.
Defined.

Lemma multiple_values_abort_the_run_witness :
  Example.aggregate (mkOptions "DP" "DP_MEAN" MEAN) Example.record_two
  = Fatal multiple_values_error /\
  Example.main (mkOptions "DP" "DP_MEAN" MEAN) "#CHROM"
    ([Example.record] ++ Example.record_two :: [Example.record])
  = mkRun
      (HeaderText (Example.addHeaderLine "#CHROM" (header_line (mkOptions "DP" "DP_MEAN" MEAN)))
       :: (VariantLine <$>
             [mkVariant (<["DP_MEAN" := ["15"]]> (info Example.record))
                        (samples Example.record)]))
      [multiple_values_error] (Some 1%Z).
Proof.
  apply (multiple_values_abort_the_run
           Example.convert_string Example.convert_double Example.addHeaderLine).
  - discriminate.
  - discriminate.
  - constructor; [vm_compute; reflexivity|constructor].
  - apply (bool_decide_unpack _). vm_compute. exact I.
  - exists ("S2", Example.S2_two). split.
    + apply (bool_decide_unpack _). vm_compute. exact I.
    + exists ["20"; "21"]. split; [vm_compute; reflexivity|simpl; lia].
Defined.

Lemma unparsed_value_is_collected_witness :
  collect Example.convert_string "DP"
    ([] ++ ("S1", Example.S1_text) :: [("S2", Example.S2); ("S3", Example.S3)]) []
  = (vals' ← collect Example.convert_string "DP" [] [];
     collect Example.convert_string "DP" [("S2", Example.S2); ("S3", Example.S3)]
       (vals' ++ [(Example.convert_string "abc").2])) /\
  (forall o var d,
      aggregate Example.convert_string Example.convert_double o var = Fatal d ->
      d = multiple_values_error).
Proof.
  apply (unparsed_value_is_collected Example.convert_string Example.convert_double).
  - vm_compute. reflexivity.
  - vm_compute. reflexivity.
Defined.

Lemma aggregate_overwrites_one_entry_witness :
  exists vals r,
    collect Example.convert_string "DP" (samples Example.record_stale) [] = Ok vals /\
    statistic MEAN vals = Ok r /\
    <["DP_MEAN" := ["15"]]> (info Example.record_stale) !! "DP_MEAN"
      = Some [Example.convert_double r] /\
    (forall k, k <> "DP_MEAN" ->
       <["DP_MEAN" := ["15"]]> (info Example.record_stale) !! k
       = info Example.record_stale !! k) /\
    samples Example.record_stale = samples Example.record_stale.
Proof.
  assert (H : Example.aggregate (mkOptions "DP" "DP_MEAN" MEAN) Example.record_stale
              = Ok (mkVariant (<["DP_MEAN" := ["15"]]> (info Example.record_stale))
                              (samples Example.record_stale))).
  { vm_compute. reflexivity. }
  exact (aggregate_overwrites_one_entry Example.convert_string Example.convert_double
           _ _ _ H).
Defined.

Lemma empty_collection_is_not_guarded_witness :
  collect Example.convert_string "DP" (samples Example.record_none) [] = Ok [] /\
  statistic MEDIAN [] = deref [] 0 /\
  statistic MIN [] = deref [] (length ([] : list double)) /\
  statistic MAX [] = deref [] (length ([] : list double)) /\
  deref [] 0 = Undefined /\
  statistic MEAN [] = Ok (div zero (of_nat 0)) /\ div zero (of_nat 0) = nan /\
  Example.aggregate (mkOptions "DP" "DP_MEDIAN" MEDIAN) Example.record_none = Undefined.
Proof.
  apply (empty_collection_is_not_guarded Example.convert_string Example.convert_double
           (mkOptions "DP" "DP_MEDIAN" MEDIAN) Example.record_none).
  apply (bool_decide_unpack _). vm_compute. exact I.
Defined.

Lemma median_of_scenario_is_20_witness :
  collect Example.convert_string "DP" (samples Example.record) []
  = Ok [of_Z 10; of_Z 20] /\
  Example.aggregate (mkOptions "DP" "DP_MEDIAN" MEDIAN) Example.record
  = Ok (mkVariant
          (<["DP_MEDIAN" := [Example.convert_double (of_Z 20)]]> (info Example.record))
          (samples Example.record)).
Proof.
  apply (median_of_scenario_is_20 Example.convert_string Example.convert_double).
  - vm_compute. reflexivity.
  - vm_compute. reflexivity.
Defined.

(** C2, as the specification words it, fails: the scenario ends with
    DP_MEDIAN at 20, not at 10. *)
Lemma median_of_scenario_is_not_10 :
  collect Example.convert_string "DP" (samples Example.record) []
  = Ok [of_Z 10; of_Z 20] /\
  (exists var', Example.aggregate (mkOptions "DP" "DP_MEDIAN" MEDIAN) Example.record = Ok var'
                /\ info var' !! "DP_MEDIAN" = Some ["20"]) /\
  ~ (exists var', Example.aggregate (mkOptions "DP" "DP_MEDIAN" MEDIAN) Example.record = Ok var'
                  /\ info var' !! "DP_MEDIAN" = Some ["10"]).
Proof.
  assert (H : Example.aggregate (mkOptions "DP" "DP_MEDIAN" MEDIAN) Example.record
              = Ok (mkVariant (<["DP_MEDIAN" := ["20"]]> (info Example.record))
                              (samples Example.record))).
  { vm_compute. reflexivity. }
  split; [vm_compute; reflexivity|]. split.
  - eexists. split; [exact H|]. apply lookup_insert_eq.
  - intros (var' & Hvar & Hinfo). rewrite H in Hvar. injection Hvar as <-.
    simpl in Hinfo. rewrite lookup_insert_eq in Hinfo. discriminate Hinfo.
Qed.

(** C5, as the specification words it, fails: S1 has the text abc for
    DP, the conversion reports a failure, and the run still ends with
    status 0 and a DP_MEAN computed from the value left for abc. *)
Lemma unparsed_value_is_aggregated :
  (Example.convert_string "abc").1 = false /\
  (exists var', Example.aggregate (mkOptions "DP" "DP_MEAN" MEAN) Example.record_text = Ok var'
                /\ info var' !! "DP_MEAN" = Some ["10"]) /\
  status (Example.main (mkOptions "DP" "DP_MEAN" MEAN) "#CHROM" [Example.record_text])
  = Some 0%Z.
Proof.
  split; [vm_compute; reflexivity|]. split; [|vm_compute; reflexivity].
  exists (mkVariant (<["DP_MEAN" := ["10"]]> (info Example.record_text))
                    (samples Example.record_text)).
  split; [vm_compute; reflexivity|apply lookup_insert_eq].
Qed.

(** * Further properties *)

(** ** The statistics against each other and against the order of the values *)

Section MoreStatistics.

Implicit Types (v w : list double) (x r : double).

(** A value below the one selected in a partitioned range has at most
    [nth] values not above it. *)
Lemma partitioned_count_below pre post x x' :
  Spec.ordered_values (pre ++ x' :: post) ->
  Forall (fun y => ltb y x' = false) post -> ltb x x' = true ->
  length (List.filter (fun y => negb (ltb x y)) (pre ++ x' :: post)) <= length pre.
Proof.
  intros Hnan Hpost Hlt. rewrite List.filter_app, length_app.
  apply Forall_app in Hnan as [_ Hnan].
  rewrite (filter_none _ (x' :: post)).
  - pose proof (filter_length_le (fun y => negb (ltb x y)) pre). simpl. lia.
  - constructor; [by rewrite Hlt|].
    apply Forall_cons in Hnan as [_ Hnan].
    rewrite Forall_forall in Hnan, Hpost. apply Forall_forall. intros y Hy.
    apply negb_false_iff. apply (lt_le_trans x y x'); auto.
Qed.

Lemma partitioned_not_below nth w w' :
  Spec.ordered_values w' -> w ≡ₚ w' ->
  Std.partitioned_at nth w -> Std.partitioned_at nth w' ->
  forall x x', w !! nth = Some x -> w' !! nth = Some x' -> ltb x x' = false.
Proof.
  intros Hnan Hperm (pre & y & post & -> & Hlen & Hpre & Hpost)
    (pre' & y' & post' & -> & Hlen' & Hpre' & Hpost') x x' Hx Hx'.
  rewrite lookup_app_r in Hx, Hx' by lia.
  replace (nth - length pre) with 0 in Hx by lia.
  replace (nth - length pre') with 0 in Hx' by lia.
  injection Hx as ->. injection Hx' as ->.
  destruct (ltb x x') eqn:Hlt; [exfalso|done].
  pose proof (partitioned_count_below pre' post' x x' Hnan Hpost' Hlt) as Hfew.
  destruct (partitioned_counts pre post x Hpre Hpost) as [_ Hmany].
  rewrite (filter_count_perm _ _ _ Hperm) in Hmany. lia.
Qed.

(** Two rearrangements of the same values, each partitioned at [nth],
    hold equal values at [nth]. *)
Lemma partitioned_agree nth w w' :
  Spec.ordered_values w -> w ≡ₚ w' ->
  Std.partitioned_at nth w -> Std.partitioned_at nth w' ->
  forall x x', w !! nth = Some x -> w' !! nth = Some x' -> eqb x x' = true.
Proof.
  intros Hnan Hperm Hw Hw' x x' Hx Hx'.
  assert (Hnan' : Spec.ordered_values w').
  { unfold Spec.ordered_values. by rewrite <- Hperm. }
  pose proof Hnan as Hn. pose proof Hnan' as Hn'.
  unfold Spec.ordered_values in Hn, Hn'. rewrite Forall_forall in Hn, Hn'.
  apply eqb_of_not_ltb.
  - apply Hn. by eapply list_elem_of_lookup_2.
  - apply Hn'. by eapply list_elem_of_lookup_2.
  - by apply (partitioned_not_below nth w w').
  - by apply (partitioned_not_below nth w' w).
Qed.

Lemma median_lookup v :
  v <> [] ->
  exists x, statistic MEDIAN v = Ok x /\
            Std.nth_element (length v / 2) v !! (length v / 2) = Some x /\ x ∈ v.
Proof.
  intros Hv. set (n := length v / 2).
  assert (Hn : n < length v).
  { destruct v; [done|]. apply Nat.div_lt; simpl; lia. }
  pose proof (nth_element_perm n v) as Hperm.
  destruct (lookup_lt_is_Some_2 (Std.nth_element n v) n) as [x Hx].
  { by rewrite <- (Permutation_length Hperm). }
  exists x. split; [|split; [done|]].
  - unfold statistic, median, deref. cbn [snd]. fold n. by rewrite Hx.
  - apply list_elem_of_lookup_2 in Hx. by rewrite <- Hperm in Hx.
Qed.

(** X1. [median] reorders the vector it is given by reference and
    neither adds nor drops a value. *)
Theorem median_keeps_the_values v :
  (median v).1 ≡ₚ v /\ length (median v).1 = length v.
Proof.
  assert (H : (median v).1 ≡ₚ v) by (symmetry; apply nth_element_perm).
  split; [done|]. by apply Permutation_length.
Qed.

(** X2. On non-empty values without a NaN the three order statistics
    are defined and ordered: the minimum is at most the median, and the
    median at most the maximum. *)
Theorem min_median_max_in_order v :
  v <> [] -> Spec.ordered_values v ->
  exists lo mid hi,
    statistic MIN v = Ok lo /\ statistic MEDIAN v = Ok mid /\ statistic MAX v = Ok hi /\
    leb lo mid = true /\ leb mid hi = true.
Proof.
  intros Hv Hnan.
  destruct (min_element_spec v Hv) as (lo & Hlo & Hmin).
  destruct (max_element_spec v Hv) as (hi & Hhi & Hmax).
  destruct (median_lookup v Hv) as (mid & Hmid & _ & Hin).
  exists lo, mid, hi. unfold statistic at 1 3. unfold deref. rewrite Hlo, Hhi.
  repeat split; try done.
  - unfold Spec.ordered_values in Hnan. rewrite Forall_forall in Hnan, Hmin.
    apply leb_of_not_ltb; auto. apply Hnan. by eapply list_elem_of_lookup_2.
  - unfold Spec.ordered_values in Hnan. rewrite Forall_forall in Hnan, Hmax.
    apply leb_of_not_ltb; auto. apply Hnan. by eapply list_elem_of_lookup_2.
Qed.

Lemma min_median_max_in_order_witness :
  exists lo mid hi,
    statistic MIN (of_Z <$> [3; 1; 4; 2]%Z) = Ok lo /\
    statistic MEDIAN (of_Z <$> [3; 1; 4; 2]%Z) = Ok mid /\
    statistic MAX (of_Z <$> [3; 1; 4; 2]%Z) = Ok hi /\
    leb lo mid = true /\ leb mid hi = true.
Proof.
  apply (min_median_max_in_order (of_Z <$> [3; 1; 4; 2]%Z)).
  - discriminate.
  - apply (bool_decide_unpack _). vm_compute. exact I.
Defined.

(** X3. Median, minimum and maximum do not depend on the order in which
    the values were collected: on two orderings of the same non-empty
    values without a NaN each of them is defined and gives equal
    results. *)
Theorem order_statistics_ignore_the_order (t : StatType) v v' :
  t <> MEAN -> v <> [] -> Spec.ordered_values v -> v ≡ₚ v' ->
  exists r r', statistic t v = Ok r /\ statistic t v' = Ok r' /\ eqb r r' = true.
Proof.
  intros Ht Hv Hnan Hperm.
  assert (Hv' : v' <> []).
  { intros ->. by apply Permutation_nil_r in Hperm. }
  assert (Hnan' : Spec.ordered_values v').
  { unfold Spec.ordered_values. by rewrite <- Hperm. }
  pose proof Hnan as Hn. pose proof Hnan' as Hn'.
  unfold Spec.ordered_values in Hn, Hn'. rewrite Forall_forall in Hn, Hn'.
  destruct t; [done| | |].
  - destruct (median_lookup v Hv) as (x & Hx & Hat & _).
    destruct (median_lookup v' Hv') as (x' & Hx' & Hat' & _).
    exists x, x'. split; [done|split; [done|]].
    assert (Hlen : length v' = length v) by (symmetry; by apply Permutation_length).
    rewrite Hlen in Hat'.
    assert (Hn2 : length v / 2 < length v).
    { destruct v; [done|]. apply Nat.div_lt; simpl; lia. }
    apply (partitioned_agree (length v / 2)
             (Std.nth_element (length v / 2) v) (Std.nth_element (length v / 2) v')); try done.
    + unfold Spec.ordered_values. by rewrite <- (nth_element_perm _ v).
    + by rewrite <- !nth_element_perm.
    + by apply nth_element_partitioned.
    + apply nth_element_partitioned. by rewrite Hlen.
  - destruct (min_element_spec v Hv) as (x & Hx & Hall).
    destruct (min_element_spec v' Hv') as (x' & Hx' & Hall').
    exists x, x'. unfold statistic, deref. rewrite Hx, Hx'. split; [done|split; [done|]].
    apply list_elem_of_lookup_2 in Hx, Hx'. rewrite Forall_forall in Hall, Hall'.
    apply eqb_of_not_ltb; auto.
    + apply Hall'. by rewrite <- Hperm.
    + apply Hall. by rewrite Hperm.
  - destruct (max_element_spec v Hv) as (x & Hx & Hall).
    destruct (max_element_spec v' Hv') as (x' & Hx' & Hall').
    exists x, x'. unfold statistic, deref. rewrite Hx, Hx'. split; [done|split; [done|]].
    apply list_elem_of_lookup_2 in Hx, Hx'. rewrite Forall_forall in Hall, Hall'.
    apply eqb_of_not_ltb; auto.
    + apply Hall. by rewrite Hperm.
    + apply Hall'. by rewrite <- Hperm.
Qed.

Lemma order_statistics_ignore_the_order_witness :
  exists r r',
    statistic MEDIAN (of_Z <$> [3; 1; 4; 2]%Z) = Ok r /\
    statistic MEDIAN (of_Z <$> [2; 4; 1; 3]%Z) = Ok r' /\ eqb r r' = true.
Proof.
  apply (order_statistics_ignore_the_order MEDIAN).
  - discriminate.
  - discriminate.
  - apply (bool_decide_unpack _). vm_compute. exact I.
  - apply (bool_decide_unpack _). vm_compute. exact I.
Defined.

Lemma accumulate_nan v : Std.accumulate v nan = nan.
Proof. induction v as [|x v IH]; simpl; [done|]. exact IH. Qed.

(** X4. A NaN among the collected values makes the mean a NaN. *)
Theorem mean_of_a_nan_is_nan v :
  nan ∈ v -> statistic MEAN v = Ok nan.
Proof.
  intros Hin. apply list_elem_of_split in Hin as (pre & post & ->).
  unfold statistic, mean. f_equal.
  assert (Hsum : forall init, Std.accumulate (pre ++ nan :: post) init = nan).
  { induction pre as [|x pre IH]; intros init; simpl; [|by apply IH].
    replace (add init nan) with nan by (by destruct init as [[]|[]| |[]]).
    apply accumulate_nan. }
  by rewrite Hsum.
Qed.

Lemma mean_of_a_nan_is_nan_witness :
  statistic MEAN [of_Z 10; nan; of_Z 20] = Ok nan.
Proof.
  apply mean_of_a_nan_is_nan. apply (bool_decide_unpack _). vm_compute. exact I.
Defined.

End MoreStatistics.

(** ** The aggregation of one record *)

Section MoreAggregation.

Variable convert_string : string -> bool * double.
Variable convert_double : double -> string.

Implicit Types (o : Options) (var : Variant) (vals : list double).
Implicit Types (ss : list (string * gmap string (list string))).
Implicit Types (sample : gmap string (list string)) (field name : string).

Local Abbreviation collect := (collect convert_string).
Local Abbreviation aggregate := (aggregate convert_string convert_double).

(** What one sample adds to the collected values. *)
Local Abbreviation contribution field :=
  (fun s : string * gmap string (list string) =>
     (fun text => (convert_string text).2) <$> Notions.first_value field s.2).

Lemma collect_ok_entries field ss vals vals' :
  collect field ss vals = Ok vals' ->
  Forall (fun s => Notions.one_or_none field s.2) ss.
Proof.
  revert vals. induction ss as [|[name sample] ss IH]; intros vals; simpl; [done|].
  destruct (sample !! field) as [[|s values]|] eqn:Hfield; [done| |].
  - destruct (1 <? length (s :: values))%nat eqn:Hlen; [done|].
    intros H. constructor; [|by eapply IH].
    right. exists s. simpl. rewrite Hfield. destruct values; [done|].
    apply Nat.ltb_ge in Hlen. simpl in Hlen. lia.
  - intros H. constructor; [by left|by eapply IH].
Qed.

Lemma collect_one_or_none field ss vals :
  Forall (fun s => Notions.one_or_none field s.2) ss ->
  collect field ss vals = Ok (vals ++ omap (contribution field) ss).
Proof.
  intros H. revert vals. induction H as [|[name sample] ss Hs _ IH]; intros vals; simpl.
  - by rewrite app_nil_r.
  - unfold Notions.first_value. simpl in *. destruct Hs as [Hs|[s Hs]]; rewrite Hs; simpl.
    + apply IH.
    + rewrite IH. by rewrite <- app_assoc.
Qed.

(** X5. When every sample has at most one value for the field, the loop
    collects, in the order of the samples, the converted value of each
    sample that has the field, and nothing else. *)
Theorem collect_is_the_converted_entries field ss vals :
  Forall (fun s => Notions.one_or_none field s.2) ss ->
  collect field ss vals = Ok (vals ++ omap (contribution field) ss).
Proof. apply collect_one_or_none. Qed.

Lemma contribution_carries field ss :
  Forall (fun s => Notions.one_or_none field s.2) ss ->
  omap (contribution field) ss <> [] <-> Exists (fun s => Notions.carries field s.2) ss.
Proof.
  induction 1 as [|[name sample] ss Hs _ IH]; simpl.
  - split; [done|]. by intros H%Exists_nil.
  - rewrite Exists_cons. unfold Notions.first_value, Notions.carries. simpl in *.
    destruct Hs as [Hs|[s Hs]]; rewrite Hs; simpl.
    + rewrite IH. split; [by right|]. intros [[x Hx]|H]; [done|done].
    + split; [|done]. intros _. left. by eexists.
Qed.

Lemma statistic_ok (t : StatType) vals :
  (exists r, statistic t vals = Ok r) <-> t = MEAN \/ vals <> [].
Proof.
  split.
  - intros [r Hr]. destruct t; [by left| | |]; right; intros ->; by vm_compute in Hr.
  - intros [->|Hv]; [by eexists|].
    destruct t; [by eexists| | |].
    + destruct (median_lookup vals Hv) as (x & Hx & _). by exists x.
    + destruct (min_element_spec vals Hv) as (x & Hx & _).
      exists x. unfold statistic, deref. by rewrite Hx.
    + destruct (max_element_spec vals Hv) as (x & Hx & _).
      exists x. unfold statistic, deref. by rewrite Hx.
Qed.

(** X6. A record is aggregated exactly when every sample has at most one
    value for the source field and, unless the statistic is the mean,
    some sample has the field. *)
Theorem aggregate_succeeds_exactly_when o var :
  (exists var', aggregate o var = Ok var') <->
  Forall (fun s => Notions.one_or_none (sampleField o) s.2) (samples var) /\
  (statType o = MEAN \/ Exists (fun s => Notions.carries (sampleField o) s.2) (samples var)).
Proof.
  split.
  - intros [var' H]. destruct (aggregate_ok _ _ o var var' H) as (vals & r & Hvals & Hr & _).
    pose proof (collect_ok_entries _ _ _ _ Hvals) as Hone. split; [done|].
    rewrite (collect_one_or_none _ _ _ Hone) in Hvals. injection Hvals as <-.
    destruct (proj1 (statistic_ok _ _) (ex_intro _ r Hr)) as [Ht|Hne]; [by left|right].
    by apply contribution_carries.
  - intros [Hone Hsome]. unfold aggregate.
    rewrite (collect_one_or_none _ _ _ Hone). simpl.
    assert (Hstat : exists r, statistic (statType o)
                                (omap (contribution (sampleField o)) (samples var)) = Ok r).
    { apply statistic_ok. destruct Hsome as [Ht|Hex]; [by left|right].
      by apply contribution_carries. }
    destruct Hstat as [r Hr]. rewrite Hr. simpl. by eexists.
Qed.

(** X7. Aggregating a record that was aggregated changes nothing. *)
Theorem aggregate_twice_is_once o var var' :
  aggregate o var = Ok var' -> aggregate o var' = Ok var'.
Proof.
  intros H. destruct (aggregate_ok _ _ o var var' H) as (vals & r & Hvals & Hr & ->).
  unfold aggregate. cbn [samples info]. rewrite Hvals. cbn [mbind result_bind].
  rewrite Hr. cbn [mbind result_bind]. rewrite info_overwrite.
  by rewrite insert_insert_eq.
Qed.

(** X8. What aggregation writes, and whether it succeeds, depends on the
    samples and the options, not on the INFO the record came with. *)
Theorem aggregate_ignores_the_info o i i' ss :
  (fun var => (info var !! infoField o, samples var)) <$> aggregate o (mkVariant i ss)
  = (fun var => (info var !! infoField o, samples var)) <$> aggregate o (mkVariant i' ss).
Proof.
  unfold aggregate. cbn [samples info].
  destruct (collect (sampleField o) ss []) as [vals| |]; [|done|done].
  cbn [mbind result_bind].
  destruct (statistic (statType o) vals) as [r| |]; [|done|done].
  cbn [mbind result_bind mret result_ret fmap result_fmap info samples].
  by rewrite !info_overwrite, !lookup_insert_eq.
Qed.

(** X9. The first sample whose entry for the field does not hold exactly
    one value decides how the loop ends, whatever the samples after it:
    with two values or more the diagnostic on multiple values, with an
    empty entry no defined behaviour ([front()] of an empty vector). *)
Theorem first_odd_entry_decides field ss1 name sample ss2 vals values :
  Forall (fun s => Notions.one_or_none field s.2) ss1 ->
  sample !! field = Some values -> length values <> 1 ->
  collect field (ss1 ++ (name, sample) :: ss2) vals =
    if decide (values = []) then Undefined else Fatal multiple_values_error.
Proof.
  intros Hone Hs Hlen. rewrite collect_app.
  rewrite (collect_one_or_none _ _ _ Hone). simpl. rewrite Hs.
  destruct values as [|s [|s' values]]; [done|done|done].
Qed.

End MoreAggregation.

Lemma collect_is_the_converted_entries_witness :
  collect Example.convert_string "DP" (samples Example.record) []
  = Ok ([] ++ omap (fun s => (fun text => (Example.convert_string text).2)
                             <$> Notions.first_value "DP" s.2)
                   (samples Example.record)).
Proof.
  apply (collect_is_the_converted_entries Example.convert_string).
  apply (bool_decide_unpack _). vm_compute. exact I.
Defined.

Lemma aggregate_twice_is_once_witness :
  Example.aggregate (mkOptions "DP" "DP_MEAN" MEAN)
    (mkVariant (<["DP_MEAN" := ["15"]]> (info Example.record_stale))
               (samples Example.record_stale))
  = Ok (mkVariant (<["DP_MEAN" := ["15"]]> (info Example.record_stale))
                  (samples Example.record_stale)).
Proof.
  apply (aggregate_twice_is_once Example.convert_string Example.convert_double
           _ Example.record_stale).
  vm_compute. reflexivity.
Defined.

Lemma first_odd_entry_decides_witness :
  collect Example.convert_string "DP"
    ([("S1", Example.S1)] ++ ("S2", Example.S2_two) :: [("S3", Example.S3)]) []
  = (if decide (["20"; "21"] = []) then Undefined else Fatal multiple_values_error).
Proof.
  apply (first_odd_entry_decides Example.convert_string).
  - apply (bool_decide_unpack _). vm_compute. exact I.
  - vm_compute. reflexivity.
  - simpl. lia.
Defined.

(** ** The run over the records *)

Section MoreRun.

Variable convert_string : string -> bool * double.
Variable convert_double : double -> string.
Variable addHeaderLine : string -> string -> string.

Implicit Types (o : Options) (var : Variant) (vars pre post : list Variant).
Implicit Types (out : list Emitted) (header : string).

Local Abbreviation aggregate := (aggregate convert_string convert_double).
Local Abbreviation main_loop := (main_loop convert_string convert_double).
Local Abbreviation main := (main convert_string convert_double addHeaderLine).

Lemma main_loop_status o vars out :
  status (main_loop o vars out) = Some 0%Z ->
  exists vars', Forall2 (fun v v' => aggregate o v = Ok v') vars vars'.
Proof.
  revert out. induction vars as [|var vars IH]; intros out; simpl.
  - intros _. exists []. constructor.
  - destruct (aggregate o var) as [var'| |] eqn:Hvar; [|done|done].
    intros H. destruct (IH _ H) as [vars' Hvars]. exists (var' :: vars'). by constructor.
Qed.

(** The loop over [pre ++ post] is the loop over [pre], carried on over
    [post] when [pre] came to its end, and left as it is otherwise. *)
Lemma main_loop_split o pre post out :
  main_loop o (pre ++ post) out =
    if decide (status (main_loop o pre out) = Some 0%Z)
    then main_loop o post (cout (main_loop o pre out))
    else main_loop o pre out.
Proof.
  revert out. induction pre as [|var pre IH]; intros out; simpl.
  - try case_decide; done.
  - destruct (aggregate o var) as [var'| |]; [apply IH|done|done].
Qed.

Lemma main_loop_extends o vars out : out `prefix_of` cout (main_loop o vars out).
Proof.
  revert out. induction vars as [|var vars IH]; intros out; simpl; [done|].
  destruct (aggregate o var) as [var'| |]; simpl; [|done|done].
  etrans; [|apply IH]. by apply prefix_app_r.
Qed.

(** What the loop writes are the records read, aggregated, from the
    first up to the first that is not. *)
Lemma main_loop_written o vars out :
  exists written,
    cout (main_loop o vars out) = out ++ (VariantLine <$> written) /\
    Forall2 (fun v v' => aggregate o v = Ok v') (take (length written) vars) written.
Proof.
  revert out. induction vars as [|var vars IH]; intros out; simpl.
  - exists []. by rewrite app_nil_r.
  - destruct (aggregate o var) as [var'| |] eqn:Hvar; simpl.
    + destruct (IH (out ++ [VariantLine var'])) as (written & Hout & Hall).
      exists (var' :: written). rewrite Hout, <- app_assoc. split; [done|].
      simpl. by constructor.
    + exists []. by rewrite app_nil_r.
    + exists []. by rewrite app_nil_r.
Qed.

Lemma aggregated_records o (read written : list Variant) :
  Forall2 (fun v v' => aggregate o v = Ok v') read written ->
  Forall (fun v' => exists x, info v' !! infoField o = Some [x]) written /\
  samples <$> written = samples <$> read.
Proof.
  induction 1 as [|v v' read written Hv _ IH]; [done|].
  destruct IH as [IH1 IH2].
  destruct (aggregate_ok _ _ o v v' Hv) as (vals & r & _ & _ & ->).
  split; [constructor; [|done]|].
  - simpl. eexists. apply lookup_insert_eq.
  - rewrite !fmap_cons. simpl. by f_equal.
Qed.

(** X10. With both field names given, [main] returns 0 exactly when
    every record of the input is aggregated; the output is then the
    header and every record, one for one and in the order of the input,
    and nothing is written to the error stream. *)
Theorem run_returns_0_exactly_when o header vars :
  infoField o <> EmptyString -> sampleField o <> EmptyString ->
  (status (main o header vars) = Some 0%Z <->
   exists vars', Forall2 (fun v v' => aggregate o v = Ok v') vars vars') /\
  (forall vars',
      Forall2 (fun v v' => aggregate o v = Ok v') vars vars' ->
      main o header vars =
        mkRun (HeaderText (addHeaderLine header (header_line o)) :: (VariantLine <$> vars'))
              [] (Some 0%Z)).
Proof.
  intros Hinfo Hfield.
  assert (Hall : forall vars',
    Forall2 (fun v v' => aggregate o v = Ok v') vars vars' ->
    main o header vars =
      mkRun (HeaderText (addHeaderLine header (header_line o)) :: (VariantLine <$> vars'))
            [] (Some 0%Z)).
  { intros vars' H. unfold main. rewrite !bool_decide_eq_false_2 by done. simpl.
    rewrite <- (app_nil_r vars). by rewrite (main_loop_app _ _ o vars vars' [] _ H). }
  split; [|exact Hall]. split.
  - unfold main. rewrite !bool_decide_eq_false_2 by done. simpl. apply main_loop_status.
  - intros [vars' H]. by rewrite (Hall vars' H).
Qed.

(** X11. The output grows with the input and stops at the first record
    that is not aggregated: what is written for a prefix of the input is
    a prefix of what is written for the whole input, and a run that does
    not return 0 on the prefix is the same run on the whole input. *)
Theorem run_is_cut_at_the_first_failure o header pre post :
  cout (main o header pre) `prefix_of` cout (main o header (pre ++ post)) /\
  (status (main o header pre) <> Some 0%Z ->
   main o header (pre ++ post) = main o header pre).
Proof.
  unfold main. destruct (_ || _); [done|].
  rewrite main_loop_split. case_decide; [|done].
  split; [apply main_loop_extends|done].
Qed.

(** X12. With both field names given, and whether the run comes to its
    end or not, the output is the header with its added line, once and
    first, and then the aggregated records of an initial part of the
    input, one for one and in order: each holds exactly one value under
    the destination field and the samples it was read with. *)
Theorem output_is_header_then_records o header vars :
  infoField o <> EmptyString -> sampleField o <> EmptyString ->
  exists written,
    cout (main o header vars) =
      HeaderText (addHeaderLine header (header_line o)) :: (VariantLine <$> written) /\
    Forall2 (fun v v' => aggregate o v = Ok v') (take (length written) vars) written /\
    Forall (fun v' => exists x, info v' !! infoField o = Some [x]) written /\
    samples <$> written = take (length written) (samples <$> vars).
Proof.
  intros Hinfo Hfield. unfold main. rewrite !bool_decide_eq_false_2 by done. simpl.
  destruct (main_loop_written o vars [HeaderText (addHeaderLine header (header_line o))])
    as (written & Hout & Hall).
  exists written. split; [done|]. split; [done|].
  rewrite <- fmap_take. by apply aggregated_records.
Qed.

End MoreRun.

Lemma run_returns_0_exactly_when_witness :
  (status (Example.main (mkOptions "DP" "DP_MEAN" MEAN) "#CHROM" [Example.record])
   = Some 0%Z <->
   exists vars',
     Forall2 (fun v v' => Example.aggregate (mkOptions "DP" "DP_MEAN" MEAN) v = Ok v')
             [Example.record] vars') /\
  (forall vars',
      Forall2 (fun v v' => Example.aggregate (mkOptions "DP" "DP_MEAN" MEAN) v = Ok v')
              [Example.record] vars' ->
      Example.main (mkOptions "DP" "DP_MEAN" MEAN) "#CHROM" [Example.record] =
        mkRun (HeaderText (Example.addHeaderLine "#CHROM"
                             (header_line (mkOptions "DP" "DP_MEAN" MEAN)))
               :: (VariantLine <$> vars'))
              [] (Some 0%Z)).
Proof.
  apply (run_returns_0_exactly_when
           Example.convert_string Example.convert_double Example.addHeaderLine).
  - discriminate.
  - discriminate.
Defined.

(** ** The command line *)

Section MoreCommandLine.

Variable convert_string : string -> bool * double.
Variable convert_double : double -> string.
Variable addHeaderLine : string -> string -> string.
Variable open_file : string -> option (string * list Variant).
Variable open_cin : option (string * list Variant).

Implicit Types (r : Getopt.call) (calls pre post : list Getopt.call) (p : Parsing).
Implicit Types (inv : Invocation) (o : Options).

Local Abbreviation main := (main convert_string convert_double addHeaderLine).
Local Abbreviation main_from_argv :=
  (main_from_argv convert_string convert_double addHeaderLine open_file open_cin).
Local Abbreviation complaints calls := (concat (Getopt.complaint <$> calls)).
Local Abbreviation nothing_given := (mkOptions EmptyString EmptyString MEAN).

Lemma default_last_cons {A} (d x : A) (l : list A) :
  default d (last (x :: l)) = default x (last l).
Proof.
  revert d x. induction l as [|y l IH]; intros d x; [done|].
  change (last (x :: y :: l)) with (last (y :: l)). by rewrite (IH d y), (IH x y).
Qed.

Lemma last_wins_cons o r calls :
  Notions.last_wins o (r :: calls) = Notions.last_wins (Notions.last_wins o [r]) calls.
Proof.
  unfold Notions.last_wins. cbn [omap list_omap sampleField infoField statType].
  f_equal.
  - destruct (Notions.given "f" r); simpl; [apply default_last_cons|done].
  - destruct (Notions.given "i" r); simpl; [apply default_last_cons|done].
  - destruct (Notions.selects r); simpl; [apply default_last_cons|done].
Qed.

Lemma option_case_sets argv r p :
  Notions.sets r ->
  (Getopt.c r =? -1)%Z = false /\
  option_case argv r p =
    inl (mkParsing (Notions.last_wins (parsed p) [r]) (out_so_far p)
                   (err_so_far p ++ Getopt.complaint r)).
Proof.
  unfold Notions.sets, option_case, Notions.last_wins, Notions.given, Notions.selects.
  cbn [omap list_omap].
  intros [[[Hc|Hc] [arg Harg]]|[Hc|[Hc|[Hc|Hc]]]]; rewrite Hc; try rewrite Harg;
    split; reflexivity.
Qed.

(** The loop over calls that set a local, followed by other calls, goes
    on with the other calls from the locals as the last calls left them. *)
Lemma option_loop_sets argv pre post p :
  Forall Notions.sets pre ->
  option_loop argv (pre ++ post) p =
    option_loop argv post
      (mkParsing (Notions.last_wins (parsed p) pre) (out_so_far p)
                 (err_so_far p ++ complaints pre)).
Proof.
  intros H. revert p. induction H as [|r pre Hr _ IH]; intros p.
  - simpl. rewrite app_nil_r. by destruct p as [[] ? ?].
  - destruct (option_case_sets argv r p Hr) as [Hend Hcase].
    cbn [app option_loop]. rewrite Hend, Hcase, IH. cbn [parsed out_so_far err_so_far].
    rewrite <- last_wins_cons. cbn [fmap list_fmap concat]. by rewrite <- app_assoc.
Qed.

Lemma option_loop_all_set argv calls p :
  Forall Notions.sets calls ->
  option_loop argv calls p =
    inl (mkParsing (Notions.last_wins (parsed p) calls) (out_so_far p)
                   (err_so_far p ++ complaints calls)).
Proof.
  intros H. rewrite <- (app_nil_r calls) at 1. by rewrite option_loop_sets.
Qed.

(** X13. When every call of [getopt_long] sets a local, the loop ends
    with the source field of the last [-f], the destination field of the
    last [-i] and the statistic of the last selector, each as it was
    before the loop when no call gave it; nothing is written but what
    [getopt_long] itself wrote. *)
Theorem options_are_the_last_given argv calls p :
  Forall Notions.sets calls ->
  option_loop argv calls p =
    inl (mkParsing (Notions.last_wins (parsed p) calls) (out_so_far p)
                   (err_so_far p ++ complaints calls)).
Proof. apply option_loop_all_set. Qed.


(** X15. When the calls set locals only and none of them is [-f], or
    none is [-i], the program writes the diagnostic on the two field
    names and returns 1; the input is not opened. *)
Theorem missing_field_name_returns_1 inv :
  argc inv <> 1%Z -> Forall Notions.sets (calls inv) ->
  omap (Notions.given "f") (calls inv) = [] \/ omap (Notions.given "i") (calls inv) = [] ->
  main_from_argv inv =
    mkProcess [] (complaints (calls inv) ++ [missing_field_error]) (Exit 1).
Proof.
  intros Hargc Hsets Hnone. unfold main_from_argv.
  apply Z.eqb_neq in Hargc. rewrite Hargc.
  rewrite option_loop_all_set by done. cbn [parsed out_so_far err_so_far].
  unfold Notions.last_wins. cbn [sampleField infoField].
  destruct Hnone as [-> | ->]; cbn [last default].
  - by rewrite (bool_decide_eq_true_2 (EmptyString = EmptyString)), orb_true_r.
  - by rewrite (bool_decide_eq_true_2 (EmptyString = EmptyString)).
Qed.

(** What the program does with the input it opened. *)
Local Abbreviation run_on o err input :=
  (match input with
   | None => mkProcess [] err (Exit 1)
   | Some (header, vars) => after_options [] err (main o header vars)
   end).


End MoreCommandLine.

Lemma options_are_the_last_given_witness :
  option_loop (argv Invoked.with_file) (calls Invoked.with_file)
    (mkParsing (mkOptions EmptyString EmptyString MEAN) [] [])
  = inl (mkParsing (mkOptions "DP" "DP_MEAN" MEAN) [] []).
Proof.
  assert (H : Forall Notions.sets (calls Invoked.with_file)).
  { apply (bool_decide_unpack _). vm_compute. exact I. }
  exact (options_are_the_last_given (argv Invoked.with_file) (calls Invoked.with_file)
           (mkParsing (mkOptions EmptyString EmptyString MEAN) [] []) H).
Defined.


Lemma missing_field_name_returns_1_witness :
  Invoked.main_from_argv Invoked.without_info
  = mkProcess [] (concat (Getopt.complaint <$> calls Invoked.without_info)
                    ++ [missing_field_error]) (Exit 1).
Proof.
  apply (missing_field_name_returns_1 Example.convert_string Example.convert_double
           Example.addHeaderLine Invoked.open_file Invoked.open_cin Invoked.without_info).
  - discriminate.
  - apply (bool_decide_unpack _). vm_compute. exact I.
  - right. reflexivity.
Defined.


Lemma output_is_header_then_records_witness :
  exists written,
    cout (Example.main (mkOptions "DP" "DP_MEAN" MEAN) "#CHROM"
            [Example.record; Example.record_two; Example.record]) =
      HeaderText (Example.addHeaderLine "#CHROM" (header_line (mkOptions "DP" "DP_MEAN" MEAN)))
      :: (VariantLine <$> written) /\
    Forall2 (fun v v' => Example.aggregate (mkOptions "DP" "DP_MEAN" MEAN) v = Ok v')
            (take (length written) [Example.record; Example.record_two; Example.record])
            written /\
    Forall (fun v' => exists x, info v' !! "DP_MEAN" = Some [x]) written /\
    samples <$> written
    = take (length written)
           (samples <$> [Example.record; Example.record_two; Example.record]).
Proof.
  apply (output_is_header_then_records
           Example.convert_string Example.convert_double Example.addHeaderLine).
  - discriminate.
  - discriminate.
Defined.
